(** * Shuttlers page object: a shallow embedding and its properties

    The repository is a browser end-to-end test: one page-object class
    ([ShuttlerSimplePage]), one test ('Shuttler Booking') and a data fixture.
    The page object drives a browser through an automation library whose
    code is not part of the repository.

    - Part I embeds the JavaScript of the page object and of the test:
      objects live in a heap, [async] methods are computations in a
      state-and-exception monad, and every awaited library call goes
      through an abstract driver.
    - Part II models the automation core (locator resolver, action
      executor, assertion gate) the way the specification describes it,
      over an abstract document provider, and plugs it in as a driver.
    - Part III is a small concrete document used to run the definitions.
    - Part IV states and proves the properties. *)

From Stdlib Require Import Ascii String List Arith NArith Bool Lia Sorted Permutation.
From stdpp Require Import base option list sorting gmap strings fin_maps.
Import ListNotations.
Local Open Scope string_scope.

(** ** Regular expressions of the source

    The page object uses two regular-expression literals,
    [/.*dashboard.*/] and [/pay with/i].  A pattern is matched with
    Brzozowski derivatives over the bytes of the subject string. *)

Module RegExp.

Inductive regex : Type :=
| Void                          (* matches nothing *)
| Eps                           (* matches the empty string *)
| Chr (c : ascii)               (* a literal character *)
| Dot                           (* [.]: any character but a line terminator *)
| Any                           (* any character at all *)
| Seq (r1 r2 : regex)
| Alt (r1 r2 : regex)
| Star (r : regex).

(** A literal [/source/flags]; the only flag the source uses is [i]. *)
Record t : Type := mk { source : regex; ignoreCase : bool }.

Fixpoint lit (s : string) : regex :=
  match s with
  | EmptyString => Eps
  | String c s' => Seq (Chr c) (lit s')
  end.

Definition is_upper (c : ascii) : bool :=
  Nat.leb 65 (nat_of_ascii c) && Nat.leb (nat_of_ascii c) 90.

Definition to_lower (c : ascii) : ascii :=
  if is_upper c then ascii_of_nat (nat_of_ascii c + 32) else c.

Definition chr_eqb (ic : bool) (a b : ascii) : bool :=
  if ic then Ascii.eqb (to_lower a) (to_lower b) else Ascii.eqb a b.

Definition line_terminator (c : ascii) : bool :=
  Nat.eqb (nat_of_ascii c) 10 || Nat.eqb (nat_of_ascii c) 13.

Fixpoint nullable (r : regex) : bool :=
  match r with
  | Void | Chr _ | Dot | Any => false
  | Eps | Star _ => true
  | Seq r1 r2 => nullable r1 && nullable r2
  | Alt r1 r2 => nullable r1 || nullable r2
  end.

Definition seq (r1 r2 : regex) : regex :=
  match r1, r2 with
  | Void, _ | _, Void => Void
  | Eps, r | r, Eps => r
  | _, _ => Seq r1 r2
  end.

Definition alt (r1 r2 : regex) : regex :=
  match r1, r2 with
  | Void, r | r, Void => r
  | _, _ => Alt r1 r2
  end.

Fixpoint deriv (ic : bool) (c : ascii) (r : regex) : regex :=
  match r with
  | Void | Eps => Void
  | Chr a => if chr_eqb ic a c then Eps else Void
  | Dot => if line_terminator c then Void else Eps
  | Any => Eps
  | Seq r1 r2 =>
      alt (seq (deriv ic c r1) r2)
          (if nullable r1 then deriv ic c r2 else Void)
  | Alt r1 r2 => alt (deriv ic c r1) (deriv ic c r2)
  | Star r1 => seq (deriv ic c r1) (Star r1)
  end.

Fixpoint matches (ic : bool) (r : regex) (s : string) : bool :=
  match s with
  | EmptyString => nullable r
  | String c s' => matches ic (deriv ic c r) s'
  end.

(** [re.test(s)]: some substring of [s] matches the pattern. *)
Definition test (re : t) (s : string) : bool :=
  matches (ignoreCase re) (Seq (Star Any) (Seq (source re) (Star Any))) s.

(** What it means for a string to match a pattern, as a relation: the
    reference the derivative matcher is checked against. *)
Inductive Matches (ic : bool) : regex -> string -> Prop :=
| MEps : Matches ic Eps EmptyString
| MChr (a c : ascii) :
    chr_eqb ic a c = true -> Matches ic (Chr a) (String c EmptyString)
| MDot (c : ascii) :
    line_terminator c = false -> Matches ic Dot (String c EmptyString)
| MAny (c : ascii) : Matches ic Any (String c EmptyString)
| MSeq (r1 r2 : regex) (s1 s2 : string) :
    Matches ic r1 s1 -> Matches ic r2 s2 -> Matches ic (Seq r1 r2) (s1 +:+ s2)
| MAltL (r1 r2 : regex) (s : string) :
    Matches ic r1 s -> Matches ic (Alt r1 r2) s
| MAltR (r1 r2 : regex) (s : string) :
    Matches ic r2 s -> Matches ic (Alt r1 r2) s
| MStarNil (r : regex) : Matches ic (Star r) EmptyString
| MStarApp (r : regex) (s1 s2 : string) :
    Matches ic r s1 -> Matches ic (Star r) s2 -> Matches ic (Star r) (s1 +:+ s2).

End RegExp.

(** [/.*dashboard.*/] *)
Definition dashboard_re : RegExp.t :=
  RegExp.mk
    (RegExp.Seq (RegExp.Star RegExp.Dot)
       (RegExp.Seq (RegExp.lit "dashboard") (RegExp.Star RegExp.Dot)))
    false.

(** [/pay with/i] *)
Definition pay_with_re : RegExp.t :=
  RegExp.mk (RegExp.lit "pay with") true.

(** A string with its ASCII capitals turned into small letters. *)
Fixpoint lower (s : string) : string :=
  match s with
  | EmptyString => EmptyString
  | String c s' => String (RegExp.to_lower c) (lower s')
  end.

(** * Part I: the JavaScript of the repository *)

(** ** Test data (tests/testData.js) *)

Module TestData.

Record User : Type := { email : string; password : string }.

Record Route : Type := {
  pickup : string;
  pickupExact : string;
  destination : string;
  destinationExact : string;
  date : string;
  tripId : string
}.

Definition user : User :=
  {| email := "jamesswagz24@gmail.com"; password := "TestPassword" |}.

Definition route : Route :=
  {| pickup := "festac";
     pickupExact := "Festac Town, Lagos, Nigeria";
     destination := "Eko";
     destinationExact := "Eko Hotel Roundabout, Lagos, Nigeria";
     date := "20";
     tripId := "FST20006:00 AM" |}.

End TestData.

(** ** Locator expressions

    The page object never touches an element itself: it builds a locator
    ([page.getByRole(...)], [page.locator(...)], ...) and hands it to the
    automation library.  A locator is data: the strategies to find the
    element with, the enclosing scope, a text filter and an ordinal. *)

(** CSS selectors of the source, already parsed: ['label'], ['i'] and
    ['[data-test="login-button"]']. *)
Inductive Selector : Type :=
| Tag (name : string)
| Attr (name value : string).

Inductive Strategy : Type :=
| TestId (id : string)
| RoleLabel (role : string) (label : option string)
| VisibleText (text : string) (exact : bool)
| Css (sel : Selector).

Record ElementDescriptor : Type := {
  strategies : list Strategy;
  scope : list Selector;
  hasText : option RegExp.t;
  ordinal : option nat
}.

Definition single (s : Strategy) : ElementDescriptor :=
  {| strategies := [s]; scope := []; hasText := None; ordinal := None |}.

(** [page.getByRole(role, { name })] *)
Definition getByRole (role : string) (name : option string) : ElementDescriptor :=
  single (RoleLabel role name).

(** [page.getByText(text, { exact })]; [exact] is [false] when omitted. *)
Definition getByText (text : string) (exact : bool) : ElementDescriptor :=
  single (VisibleText text exact).

(** [page.getByTestId(id)] *)
Definition getByTestId (id : string) : ElementDescriptor :=
  single (TestId id).

(** [page.locator(selector)] *)
Definition locator (sel : Selector) : ElementDescriptor :=
  single (Css sel).

(** [parent.getByRole(role)] for a locator [parent]: the search runs
    inside the elements [parent] selects. *)
Definition inside (parent : Selector) (d : ElementDescriptor) : ElementDescriptor :=
  {| strategies := strategies d; scope := parent :: scope d;
     hasText := hasText d; ordinal := ordinal d |}.

(** [d.filter({ hasText: re })] *)
Definition filter_hasText (re : RegExp.t) (d : ElementDescriptor) : ElementDescriptor :=
  {| strategies := strategies d; scope := scope d;
     hasText := Some re; ordinal := ordinal d |}.

(** [d.first()] *)
Definition first (d : ElementDescriptor) : ElementDescriptor :=
  {| strategies := strategies d; scope := scope d;
     hasText := hasText d; ordinal := Some 0 |}.

(** ** Awaited library calls *)

Inductive Call : Type :=
| page_goto (url : string)                        (* page.goto(url) *)
| fill (target : ElementDescriptor) (value : string)   (* locator.fill(value) *)
| click (target : ElementDescriptor)              (* locator.click() *)
| toHaveURL (re : RegExp.t) (timeout : N)         (* expect(page).toHaveURL(re, { timeout }) *)
| toBeVisible (target : ElementDescriptor).       (* expect(locator).toBeVisible() *)

(** A [Page] object of the library is known by its identity only. *)
Definition PageHandle : Type := nat.

(** The automation library: what an awaited call does to the browser, and
    whether its promise is fulfilled ([None]) or rejected ([Some e]). *)
Class Driver : Type := {
  World : Type;
  Failure : Type;
  exec : PageHandle -> Call -> World -> option Failure * World
}.

(** ** Values, objects, heap *)

Definition loc : Type := nat.

(** The values a page object is handed as its page: [undefined], a
    string, or a [Page] of the library.  Objects with methods of their
    own are not among them: a page object is reached through its address
    in the heap, never through a [Val], so that a page object whose
    [page] is again a page object (on which [this.page.goto] would be
    the method of the inner one) is outside the embedding. *)
Inductive Val : Type :=
| VUndefined
| VString (s : string)
| VPage (p : PageHandle).

(** What the test observes of the library: the call it awaits, and how
    the call settles ([E] is the type of the library's errors). *)
Inductive EventOf (E : Type) : Type :=
| Invoke (p : PageHandle) (c : Call)
| Settle (p : PageHandle) (c : Call) (r : option E).
Arguments Invoke {E} p c.
Arguments Settle {E} p c r.

(** The state a test runs in: the browser, the objects, the log. *)
Record StateOf (W E : Type) : Type := mkState {
  browser : W;
  heap : list (gmap string Val);
  log : list (EventOf E)
}.
Arguments mkState {W E} browser heap log.
Arguments browser {W E} s.
Arguments heap {W E} s.
Arguments log {W E} s.

Inductive ExnOf (E : Type) : Type :=
| TypeError (msg : string)
| Rejected (e : E).
Arguments TypeError {E} msg.
Arguments Rejected {E} e.

Inductive CompletionOf (E A : Type) : Type :=
| Return (a : A)
| Throw (e : ExnOf E).
Arguments Return {E A} a.
Arguments Throw {E A} e.

Section Js.
Context {D : Driver}.

Definition Event : Type := EventOf Failure.
Definition State : Type := StateOf World Failure.
Definition Exn : Type := ExnOf Failure.
Definition Completion (A : Type) : Type := CompletionOf Failure A.

(** An [async] function body: [await m; k] is [bind m (fun _ => k)], and
    [p.then(() => q)] is [bind p (fun _ => q)]; a rejection skips the
    continuation and keeps the state reached so far. *)
Definition M (A : Type) : Type := State -> Completion A * State.

Definition ret {A} (a : A) : M A := fun st => (Return a, st).

Definition throw {A} (e : Exn) : M A := fun st => (Throw e, st).

Definition bind {A B} (m : M A) (k : A -> M B) : M B :=
  fun st =>
    match m st with
    | (Return a, st') => k a st'
    | (Throw e, st') => (Throw e, st')
    end.

(** [new C(...)]: the object gets the next free address. *)
Definition alloc (o : gmap string Val) : M loc :=
  fun st =>
    (Return (length (heap st)),
     {| browser := browser st; heap := heap st ++ [o]; log := log st |}).

(** [this.page], used as the receiver of a library call.  Of the values
    of [Val] only a [Page] has the methods the page object calls:
    [undefined] has no properties, and a string has no [goto],
    [getByRole], [getByText], [getByTestId] or [locator], so that on
    either the call throws a [TypeError], as it does when the object has
    no [page] at all. *)
Definition get_page (this : loc) : M PageHandle :=
  fun st =>
    match heap st !! this with
    | Some o =>
        match o !! "page" with
        | Some (VPage p) => (Return p, st)
        | _ => (Throw (TypeError "this.page is not a Page"), st)
        end
    | None => (Throw (TypeError "this is not an object"), st)
    end.

(** [await page.<call>] *)
Definition await (p : PageHandle) (c : Call) : M unit :=
  fun st =>
    let '(r, w) := exec p c (browser st) in
    let st' := {| browser := w; heap := heap st;
                  log := log st ++ [Invoke p c; Settle p c r] |} in
    match r with
    | None => (Return tt, st')
    | Some e => (Throw (Rejected e), st')
    end.

End Js.

Declare Scope js_scope.
Delimit Scope js_scope with js.
Notation "x <- m ;; k" := (bind m (fun x => k))
  (at level 100, m at next level, right associativity) : js_scope.
Notation "m ;; k" := (bind m (fun _ => k))
  (at level 100, right associativity) : js_scope.

(** ** The page object (pages/shuttler.page.js) *)

Section ShuttlerSimplePage.
Context {D : Driver}.
Local Open Scope js_scope.

(** [constructor(page) { this.page = page; }] *)
Definition new_ShuttlerSimplePage (page : Val) : M loc :=
  alloc {[ "page" := page ]}.

(** [await this.page.<call>] *)
Definition on_page (this : loc) (c : Call) : M unit :=
  page <- get_page this ;; await page c.

Definition goto (this : loc) : M loc :=
  on_page this (page_goto "https://my.shuttlers.co/auth/login") ;;
  ret this.

Definition login (this : loc) (email password : string) : M loc :=
  on_page this (fill (getByRole "textbox" (Some "Email Address")) email) ;;
  on_page this (fill (getByRole "textbox" (Some "Password Login with OTP")) password) ;;
  on_page this (click (locator (Attr "data-test" "login-button"))) ;;
  on_page this (toHaveURL dashboard_re 30000%N) ;;
  ret this.

Definition searchRoute (this : loc)
    (pickup pickupExact destination destinationExact date : string) : M loc :=
  on_page this (fill (getByRole "textbox" (Some "Pick up location")) pickup) ;;
  on_page this (click (getByText pickupExact true)) ;;
  on_page this (fill (getByRole "textbox" (Some "Search destination")) destination) ;;
  on_page this (click (getByText destinationExact true)) ;;
  on_page this (click (inside (Tag "i") (getByRole "img" None))) ;;
  on_page this (click (getByText date true)) ;;
  on_page this (click (getByTestId "find-trips-btn")) ;;
  ret this.

Definition bookTrip (this : loc) (tripId : string) : M loc :=
  on_page this (click (getByText tripId false)) ;;
  on_page this (click (getByRole "button" (Some "Book Trip â‚¦"))) ;;
  on_page this (toBeVisible (first (filter_hasText pay_with_re (locator (Tag "label"))))) ;;
  ret this.

(** ** The test (tests/shuttler.spec.js) *)

Definition Shuttler_Booking (page : Val) : M unit :=
  shuttler <- new_ShuttlerSimplePage page ;;
  goto shuttler ;;
  login shuttler (TestData.email TestData.user) (TestData.password TestData.user) ;;
  searchRoute shuttler
    (TestData.pickup TestData.route) (TestData.pickupExact TestData.route)
    (TestData.destination TestData.route) (TestData.destinationExact TestData.route)
    (TestData.date TestData.route) ;;
  bookTrip shuttler (TestData.tripId TestData.route) ;;
  ret tt.

End ShuttlerSimplePage.

(** ** Flow steps as data

    The four methods, reified so that properties can quantify over them. *)

Inductive FlowStep : Type :=
| Goto
| Login (email password : string)
| SearchRoute (pickup pickupExact destination destinationExact date : string)
| BookTrip (tripId : string).

Section Steps.
Context {D : Driver}.

Definition run_step (this : loc) (s : FlowStep) : M loc :=
  match s with
  | Goto => goto this
  | Login e p => login this e p
  | SearchRoute a b c d e => searchRoute this a b c d e
  | BookTrip t => bookTrip this t
  end.

(** Calling the methods one after the other on one page object, whether
    or not the earlier calls were fulfilled. *)
Definition run_ops (this : loc) (ops : list FlowStep) (st : State) : State :=
  fold_left (fun st' op => snd (run_step this op st')) ops st.

End Steps.

(** The library calls each method awaits, in source order. *)
Definition calls_of (s : FlowStep) : list Call :=
  match s with
  | Goto => [page_goto "https://my.shuttlers.co/auth/login"]
  | Login email password =>
      [fill (getByRole "textbox" (Some "Email Address")) email;
       fill (getByRole "textbox" (Some "Password Login with OTP")) password;
       click (locator (Attr "data-test" "login-button"));
       toHaveURL dashboard_re 30000%N]
  | SearchRoute pickup pickupExact destination destinationExact date =>
      [fill (getByRole "textbox" (Some "Pick up location")) pickup;
       click (getByText pickupExact true);
       fill (getByRole "textbox" (Some "Search destination")) destination;
       click (getByText destinationExact true);
       click (inside (Tag "i") (getByRole "img" None));
       click (getByText date true);
       click (getByTestId "find-trips-btn")]
  | BookTrip tripId =>
      [click (getByText tripId false);
       click (getByRole "button" (Some "Book Trip â‚¦"));
       toBeVisible (first (filter_hasText pay_with_re (locator (Tag "label"))))]
  end.

(** The steps the test chains, with the fixture's data. *)
Definition booking_steps : list FlowStep :=
  [Goto;
   Login (TestData.email TestData.user) (TestData.password TestData.user);
   SearchRoute
     (TestData.pickup TestData.route) (TestData.pickupExact TestData.route)
     (TestData.destination TestData.route) (TestData.destinationExact TestData.route)
     (TestData.date TestData.route);
   BookTrip (TestData.tripId TestData.route)].

Section Scripts.
Context {D : Driver}.

(** Running a list of calls against the library alone, left to right,
    stopping at the first rejection: the number of calls that were
    fulfilled, the rejection if any, and the browser left behind. *)
Fixpoint exec_calls (p : PageHandle) (cs : list Call) (w : World)
  : nat * option Failure * World :=
  match cs with
  | [] => (0, None, w)
  | c :: cs' =>
      match exec p c w with
      | (None, w') =>
          let '(n, r, w'') := exec_calls p cs' w' in (S n, r, w'')
      | (Some e, w') => (0, Some e, w')
      end
  end.

(** The events of the calls [cs] when the first [n] are fulfilled and the
    next one, if [r] names a rejection, is rejected. *)
Fixpoint events_of (p : PageHandle) (cs : list Call) (n : nat) (r : option Failure)
  : list Event :=
  match cs, n with
  | [], _ => []
  | c :: cs', S n' => Invoke p c :: Settle p c None :: events_of p cs' n' r
  | c :: _, 0 =>
      match r with
      | Some e => [Invoke p c; Settle p c (Some e)]
      | None => []
      end
  end.

(** Awaiting the calls [cs] on [this.page] one after the other, then
    continuing with [k]: the shape of every method body. *)
Fixpoint run_calls {A} (this : loc) (cs : list Call) (k : M A) : M A :=
  match cs with
  | [] => k
  | c :: cs' => bind (on_page this c) (fun _ => run_calls this cs' k)
  end.

(** The [Page] stored in the [page] field of the object at [this]. *)
Definition page_of (h : list (gmap string Val)) (this : loc) : option PageHandle :=
  match h !! this with
  | Some o =>
      match o !! "page" with
      | Some (VPage p) => Some p
      | _ => None
      end
  | None => None
  end.

(** The calls a log shows as started, in order. *)
Definition invocations (l : list Event) : list Call :=
  flat_map (fun ev => match ev with
                      | Invoke _ c => [c]
                      | Settle _ _ _ => []
                      end) l.

(** The events logged since the log was [before]. *)
Definition logged_since (before : list Event) (st : State) : list Event :=
  drop (length before) (log st).

Definition succeeded {A} (c : Completion A) : bool :=
  match c with
  | Return _ => true
  | Throw _ => false
  end.

(** A method called on a page object made for the occasion. *)
Definition fresh_run (page : Val) (s : FlowStep) : M loc :=
  bind (new_ShuttlerSimplePage page) (fun this => run_step this s).

End Scripts.

(** The page an event is about. *)
Definition event_page {E : Type} (ev : EventOf E) : PageHandle :=
  match ev with
  | Invoke p _ => p
  | Settle p _ _ => p
  end.

(** ** The inspection script (temp_inspect.js)

    The script drives the library directly: it launches a browser, opens
    a context and a page, navigates, clicks the e-mail field, and closes
    the three in turn.  Browsers and contexts, like pages, are known by
    their identity. *)

Inductive Op : Type :=
| chromium_launch (headless : bool)           (* chromium.launch({ headless }) *)
| browser_newContext (browser : nat)          (* browser.newContext() *)
| context_newPage (context : nat)             (* context.newPage() *)
| page_call (page : PageHandle) (c : Call)    (* page.goto(url), locator.click() *)
| page_close (page : PageHandle)              (* page.close() *)
| context_close (context : nat)               (* context.close() *)
| browser_close (browser : nat).              (* browser.close() *)

(** The library as the script sees it: what an awaited operation does to
    the machine, and the value its promise is fulfilled with (the new
    browser, context or page; nothing of interest otherwise) or the error
    it is rejected with. *)
Class Runtime : Type := {
  Machine : Type;
  Fault : Type;
  perform : Op -> Machine -> (Fault + nat) * Machine
}.

(** The machine, and the operations awaited so far, each with the value
    or the error it settled with. *)
Record RunOf (Mc F : Type) : Type := mkRun {
  machine : Mc;
  trace : list (Op * (F + nat))
}.
Arguments mkRun {Mc F} machine trace.
Arguments machine {Mc F} r.
Arguments trace {Mc F} r.

Section Script.
Context {R : Runtime}.

Definition Run : Type := RunOf Machine Fault.

(** The body of the [async] arrow function: a rejection ends it. *)
Definition Script (A : Type) : Type := Run -> (Fault + A) * Run.

Definition done_with {A} (a : A) : Script A := fun r => (inr a, r).

Definition and_then {A B} (m : Script A) (k : A -> Script B) : Script B :=
  fun r =>
    match m r with
    | (inr a, r') => k a r'
    | (inl e, r') => (inl e, r')
    end.

(** [await <operation>] *)
Definition awaited (o : Op) : Script nat :=
  fun r =>
    match perform o (machine r) with
    | (inr v, m) => (inr v, {| machine := m; trace := trace r ++ [(o, inr v)] |})
    | (inl e, m) => (inl e, {| machine := m; trace := trace r ++ [(o, inl e)] |})
    end.

Definition temp_inspect : Script unit :=
  and_then (awaited (chromium_launch false)) (fun browser =>
  and_then (awaited (browser_newContext browser)) (fun context =>
  and_then (awaited (context_newPage context)) (fun page =>
  and_then (awaited (page_call page (page_goto "https://my.shuttlers.co/auth/login"))) (fun _ =>
  and_then (awaited (page_call page
                       (click (getByRole "textbox" (Some "Email Address"))))) (fun _ =>
  and_then (awaited (page_close page)) (fun _ =>
  and_then (awaited (context_close context)) (fun _ =>
  and_then (awaited (browser_close browser)) (fun _ =>
  done_with tt)))))))).

(** The part of a trace added since it was [before]. *)
Definition traced_since (before : list (Op * (Fault + nat))) (r : Run)
  : list (Op * (Fault + nat)) :=
  drop (length before) (trace r).

End Script.

Definition closes (o : Op) : bool :=
  match o with
  | page_close _ | context_close _ | browser_close _ => true
  | _ => false
  end.

Definition closes_browser (o : Op) : bool :=
  match o with
  | browser_close _ => true
  | _ => false
  end.

Definition fulfilled {F : Type} (x : Op * (F + nat)) : bool :=
  match snd x with
  | inr _ => true
  | inl _ => false
  end.

(** * Part II: the automation core

    The repository holds no code for what happens inside an awaited call:
    finding the element, waiting until it can be acted on, waiting for a
    post-condition.  The definitions of this part follow sections 3, 4 and
    7 of the specification, over the query and interaction primitives of
    the document provider of section 6. *)

Definition Handle : Type := nat.

(** The document provider: a live document, what can be asked of it and
    what can be done to it.  [next_frame] is the document one polling
    interval later. *)
Class DocumentProvider : Type := {
  Doc : Type;
  location : Doc -> string;
  query : list Selector -> Strategy -> Doc -> list Handle;
  inner_text : Handle -> Doc -> string;
  attached : Handle -> Doc -> bool;
  visible : Handle -> Doc -> bool;
  stable : Handle -> Doc -> bool;
  enabled : Handle -> Doc -> bool;
  unobstructed : Handle -> Doc -> bool;
  next_frame : Doc -> Doc;
  navigate : string -> Doc -> option Doc;
  fill_value : Handle -> string -> Doc -> Doc;
  dispatch_click : Handle -> Doc -> Doc
}.

(** Times are in milliseconds. *)
Record Config : Type := {
  pollInterval : N;
  actionTimeout : N;
  expectTimeout : N
}.

Module Core.

Inductive ResolutionKind : Type := NotFound | Ambiguous | Timeout.

Inductive Precondition : Type :=
| Attached | Visible | Stable | Enabled | Unobstructed.

Inductive Condition : Type :=
| UrlMatches (re : RegExp.t)
| ElementVisible (d : ElementDescriptor).

Inductive ActionKind : Type := FillAction | ClickAction.

(** Modelled from the spec: the error taxonomy of section 7.  The
    repository declares no error type of its own.  [ProviderError] is
    not part of the taxonomy: it is the document provider's own failure
    (a navigation that fails, a page of another session). *)
Inductive Error : Type :=
| ResolutionError (kind : ResolutionKind) (tried : list Strategy)
| ActionError (NotActionable : string)
| GateTimeoutError (condition : Condition) (lastObserved : string)
| FlowError (stepIndex : nat) (cause : Error)
| ProviderError (msg : string).

Section WithProvider.
Context {P : DocumentProvider} (cfg : Config).

(** Modelled from the spec: the Session of section 3, one live
    document context; the clock counts the milliseconds spent
    waiting. *)
Record Session : Type := {
  page_id : PageHandle;
  doc : Doc;
  clock : N
}.

Definition with_doc (d : Doc) (s : Session) : Session :=
  {| page_id := page_id s; doc := d; clock := clock s |}.

(** One polling interval passes. *)
Definition tick (s : Session) : Session :=
  {| page_id := page_id s; doc := next_frame (doc s);
     clock := (clock s + pollInterval cfg)%N |}.

(** The session [k] polling intervals later. *)
Fixpoint later (k : nat) (s : Session) : Session :=
  match k with
  | 0 => s
  | S k' => later k' (tick s)
  end.

(** The number of re-polls a timeout allows. *)
Definition polls (timeout : N) : nat :=
  N.to_nat (timeout / pollInterval cfg).

(** *** 4.1 Locator Resolver *)

Definition priority (s : Strategy) : nat :=
  match s with
  | TestId _ => 0
  | RoleLabel _ _ => 1
  | VisibleText _ _ => 2
  | Css _ => 3
  end.

Definition of_priority (n : nat) (s : Strategy) : bool :=
  Nat.eqb (priority s) n.

(** Modelled from the spec: the priority order of section 4.1, "exact
    test-id match, then semantic role+label, then visible text, then
    CSS fallback list"; strategies of one kind keep the order the
    descriptor lists them in. *)
Definition by_priority (l : list Strategy) : list Strategy :=
  List.filter (of_priority 0) l ++ List.filter (of_priority 1) l ++
  List.filter (of_priority 2) l ++ List.filter (of_priority 3) l.

(** The elements one strategy matches, in document order. *)
Definition candidates (d : ElementDescriptor) (s : Strategy) (dc : Doc)
  : list Handle :=
  let ms := query (scope d) s dc in
  match hasText d with
  | None => ms
  | Some re => List.filter (fun h => RegExp.test re (inner_text h dc)) ms
  end.

Inductive Attempt : Type := Found (h : Handle) | Missing | Tie.

(** Modelled from the spec: section 4.1, "until the element exists and
    is unique"; "ties (multiple matches) resolved by the descriptor's
    ordinal selector (default: first in document order)". *)
Definition select (d : ElementDescriptor) (ms : list Handle) : Attempt :=
  match ms with
  | [] => Missing
  | [h] => Found h
  | _ =>
      match ms !! default 0 (ordinal d) with
      | Some h => Found h
      | None => Tie
      end
  end.

Fixpoint first_found (d : ElementDescriptor) (dc : Doc) (ss : list Strategy)
  : option Handle :=
  match ss with
  | [] => None
  | s :: ss' =>
      match select d (candidates d s dc) with
      | Found h => Some h
      | _ => first_found d dc ss'
      end
  end.

(** One observation of the document: the strategies in priority order. *)
Definition locate (d : ElementDescriptor) (dc : Doc) : option Handle :=
  first_found d dc (by_priority (strategies d)).

Definition tied (d : ElementDescriptor) (dc : Doc) (s : Strategy) : bool :=
  match select d (candidates d s dc) with
  | Tie => true
  | _ => false
  end.

(** Modelled from the spec: the three kinds of [ResolutionError] of
    section 4.1, read off the last observation.  The specification
    does not say which kind is returned when; here a tie the ordinal
    cannot break is [Ambiguous], a descriptor without strategies is
    [NotFound], and any other exhausted budget is [Timeout]. *)
Definition diagnose (d : ElementDescriptor) (dc : Doc) : ResolutionKind :=
  if existsb (tied d dc) (strategies d) then Ambiguous
  else match strategies d with
       | [] => NotFound
       | _ => Timeout
       end.

(** Modelled from the spec: one attempt of section 4.1, one strategy
    "polling the live document at a fixed interval until the element
    exists and is unique, or the shared timeout budget is exhausted".
    The re-polls left of the budget are returned. *)
Fixpoint attempt_poll (n : nat) (d : ElementDescriptor) (st : Strategy) (s : Session)
  : option Handle * Session * nat :=
  match select d (candidates d st (doc s)) with
  | Found h => (Some h, s, n)
  | _ =>
      match n with
      | 0 => (None, s, 0)
      | S n' => attempt_poll n' d st (tick s)
      end
  end.

(** Modelled from the spec: section 4.1, "try strategies in priority
    order": the attempts follow one another on one budget, so that a
    strategy is tried only when every strategy before it has failed, and
    the error lists the strategies tried. *)
Fixpoint resolve_from (n : nat) (d : ElementDescriptor) (ss : list Strategy)
    (s : Session) : (Handle + Error) * Session * nat :=
  match ss with
  | [] => (inr (ResolutionError (diagnose d (doc s))
                  (by_priority (strategies d))), s, n)
  | st :: ss' =>
      match attempt_poll n d st s with
      | (Some h, s', n') => (inl h, s', n')
      | (None, s', n') => resolve_from n' d ss' s'
      end
  end.

(** Modelled from the spec: resolution on a budget of [n] re-polls, the
    strategies in the priority order of section 4.1; what is left of the
    budget is returned with the answer. *)
Definition resolve_within (n : nat) (d : ElementDescriptor) (s : Session)
  : (Handle + Error) * Session * nat :=
  resolve_from n d (by_priority (strategies d)) s.

(** Modelled from the spec: [resolve(session, descriptor, timeout)] of
    section 4.1. *)
Definition resolve (s : Session) (d : ElementDescriptor) (timeout : N)
  : (Handle + Error) * Session :=
  fst (resolve_within (polls timeout) d s).



(** *** 4.2 Action Executor *)

Definition preconditions : list Precondition :=
  [Attached; Visible; Stable; Enabled; Unobstructed].

Definition holds (c : Precondition) (h : Handle) (dc : Doc) : bool :=
  match c with
  | Attached => attached h dc
  | Visible => visible h dc
  | Stable => stable h dc
  | Enabled => enabled h dc
  | Unobstructed => unobstructed h dc
  end.

Definition reason (c : Precondition) : string :=
  match c with
  | Attached => "not attached"
  | Visible => "not visible"
  | Stable => "not stable"
  | Enabled => "not enabled"
  | Unobstructed => "intercepted by an overlay"
  end.

Definition first_failing (h : Handle) (dc : Doc) : option Precondition :=
  List.find (fun c => negb (holds c h dc)) preconditions.

Definition perform (h : Handle) (a : ActionKind) (payload : string) (dc : Doc)
  : Doc :=
  match a with
  | FillAction => fill_value h payload dc
  | ClickAction => dispatch_click h dc
  end.

Fixpoint act_poll (n : nat) (h : Handle) (a : ActionKind) (payload : string)
    (s : Session) : option Error * Session :=
  match first_failing h (doc s) with
  | None => (None, with_doc (perform h a payload (doc s)) s)
  | Some c =>
      match n with
      | 0 => (Some (ActionError (reason c)), s)
      | S n' => act_poll n' h a payload (tick s)
      end
  end.

(** Modelled from the spec: the preconditions of section 4.2,
    "attached to document, visible, not animating, enabled, intercepting
    no overlay", all holding of the element. *)
Definition actionable (h : Handle) (dc : Doc) : bool :=
  attached h dc && visible h dc && stable h dc && enabled h dc && unobstructed h dc.

(** Modelled from the spec: section 4.2, "first failing precondition
    reported": [r] is the reason that names the first precondition, in
    the order the section lists them, that fails of the element. *)
Definition names_first_failing (h : Handle) (dc : Doc) (r : string) : Prop :=
  (attached h dc = false -> r = "not attached") /\
  (attached h dc = true -> visible h dc = false -> r = "not visible") /\
  (attached h dc = true -> visible h dc = true -> stable h dc = false ->
   r = "not stable") /\
  (attached h dc = true -> visible h dc = true -> stable h dc = true ->
   enabled h dc = false -> r = "not enabled") /\
  (attached h dc = true -> visible h dc = true -> stable h dc = true ->
   enabled h dc = true -> unobstructed h dc = false ->
   r = "intercepted by an overlay").

(** Modelled from the spec: [act(handle, action, payload)] of section
    4.2.  The preconditions are re-polled until all hold or the
    configured timeout is spent; the action is then performed once. *)
Definition act (s : Session) (h : Handle) (a : ActionKind) (payload : string)
  : option Error * Session :=
  act_poll (polls (actionTimeout cfg)) h a payload s.

(** *** 4.4 Assertion Gate *)

Definition satisfied (c : Condition) (dc : Doc) : bool :=
  match c with
  | UrlMatches re => RegExp.test re (location dc)
  | ElementVisible d =>
      match locate d dc with
      | Some h => visible h dc
      | None => false
      end
  end.

Definition observed (c : Condition) (dc : Doc) : string :=
  match c with
  | UrlMatches _ => location dc
  | ElementVisible d =>
      match locate d dc with
      | Some _ => "hidden"
      | None => "missing"
      end
  end.

Fixpoint await_poll (n : nat) (c : Condition) (s : Session)
  : option Error * Session :=
  if satisfied c (doc s) then (None, s)
  else match n with
       | 0 => (Some (GateTimeoutError c (observed c (doc s))), s)
       | S n' => await_poll n' c (tick s)
       end.

(** Modelled from the spec: [await(session, condition, timeout)] of
    section 4.4: "polls at fixed interval; succeeds on first satisfying
    observation; fails with GateTimeoutError after timeout elapses". *)
Definition await (s : Session) (c : Condition) (timeout : N)
  : option Error * Session :=
  await_poll (polls timeout) c s.

(** The first [label] element whose text matches [/pay with/i], in
    document order: what [bookTrip] expects to become visible. *)
Definition first_pay_with_label (dc : Doc) : option Handle :=
  head (List.filter (fun h => RegExp.test pay_with_re (inner_text h dc))
          (query [] (Css (Tag "label")) dc)).

(** *** The core as the library behind the page object *)

(** Modelled from the spec: section 4.3, each (descriptor, action)
    pair runs "via 4.1 then 4.2".  One configured timeout covers the
    pair: the executor waits on what the resolver has left of it. *)
Definition locate_and_act (d : ElementDescriptor) (a : ActionKind)
    (payload : string) (s : Session) : option Error * Session :=
  match resolve_within (polls (actionTimeout cfg)) d s with
  | (inl h, s', n') => act_poll n' h a payload s'
  | (inr e, s', _) => (Some e, s')
  end.

(** Modelled from the spec: what each awaited call of the page object
    amounts to in terms of sections 4.1, 4.2 and 4.4. *)
Definition run (p : PageHandle) (c : Call) (s : Session)
  : option Error * Session :=
  if negb (Nat.eqb p (page_id s))
  then (Some (ProviderError "not the page of this session"), s)
  else
    match c with
    | page_goto url =>
        match navigate url (doc s) with
        | Some dc => (None, with_doc dc s)
        | None => (Some (ProviderError "navigation failed"), s)
        end
    | fill d v => locate_and_act d FillAction v s
    | click d => locate_and_act d ClickAction EmptyString s
    | toHaveURL re t => await s (UrlMatches re) t
    | toBeVisible d => await s (ElementVisible d) (expectTimeout cfg)
    end.

Definition driver : Driver :=
  {| World := Session; Failure := Error; exec := run |}.

End WithProvider.

End Core.

(** * Part III: a small document to run the definitions on

    A flat list of elements (a handle is an index), and at most one
    delayed reaction to a click: a redirect, or an element being shown. *)

Module Demo.

Inductive Effect : Type :=
| Redirect (url : string)
| Reveal (h : Handle).

Record Element : Type := {
  tag : string;
  attrs : list (string * string);
  role : string;
  name : string;
  text : string;
  ancestors : list string;
  shown : bool;
  active : bool;
  value : string;
  onclick : option (nat * Effect)
}.

Record Document : Type := {
  url : string;
  elements : list Element;
  timer : option (nat * Effect)
}.

Definition has_attr (n v : string) (e : Element) : bool :=
  existsb (fun kv => String.eqb (fst kv) n && String.eqb (snd kv) v) (attrs e).

Definition match_selector (sel : Selector) (e : Element) : bool :=
  match sel with
  | Tag t => String.eqb t (tag e)
  | Attr n v => has_attr n v e
  end.

Definition match_strategy (s : Strategy) (e : Element) : bool :=
  match s with
  | TestId id => has_attr "data-testid" id e
  | RoleLabel r l =>
      String.eqb r (role e) &&
      match l with
      | Some n => String.eqb n (name e)
      | None => true
      end
  | VisibleText t exact =>
      if exact then String.eqb t (text e)
      else RegExp.test (RegExp.mk (RegExp.lit t) true) (text e)
  | Css sel => match_selector sel e
  end.

Definition in_scope (sc : list Selector) (e : Element) : bool :=
  forallb (fun sel =>
             match sel with
             | Tag t => existsb (String.eqb t) (ancestors e)
             | Attr _ _ => false
             end) sc.

Definition indexed (d : Document) : list (nat * Element) :=
  combine (seq 0 (length (elements d))) (elements d).

Definition matching (sc : list Selector) (s : Strategy) (d : Document) : list Handle :=
  List.map fst
    (List.filter (fun ie => match_strategy s (snd ie) && in_scope sc (snd ie))
       (indexed d)).

Definition prop {A} (f : Element -> A) (dflt : A) (h : Handle) (d : Document) : A :=
  match elements d !! h with
  | Some e => f e
  | None => dflt
  end.

Definition update (h : Handle) (f : Element -> Element) (d : Document) : Document :=
  {| url := url d;
     elements := match elements d !! h with
                 | Some e => <[h := f e]> (elements d)
                 | None => elements d
                 end;
     timer := timer d |}.

Definition set_shown (e : Element) : Element :=
  {| tag := tag e; attrs := attrs e; role := role e; name := name e;
     text := text e; ancestors := ancestors e; shown := true;
     active := active e; value := value e; onclick := onclick e |}.

Definition set_value (v : string) (e : Element) : Element :=
  {| tag := tag e; attrs := attrs e; role := role e; name := name e;
     text := text e; ancestors := ancestors e; shown := shown e;
     active := active e; value := v; onclick := onclick e |}.

Definition with_timer (t : option (nat * Effect)) (d : Document) : Document :=
  {| url := url d; elements := elements d; timer := t |}.

Definition apply_effect (eff : Effect) (d : Document) : Document :=
  match eff with
  | Redirect u => {| url := u; elements := elements d; timer := timer d |}
  | Reveal h => update h set_shown d
  end.

Definition advance (d : Document) : Document :=
  match timer d with
  | Some (0, eff) => apply_effect eff (with_timer None d)
  | Some (S n, eff) => with_timer (Some (n, eff)) d
  | None => d
  end.

Definition clicked (h : Handle) (d : Document) : Document :=
  match prop onclick None h d with
  | Some t => with_timer (Some t) d
  | None => d
  end.

Definition provider : DocumentProvider :=
  {| Doc := Document;
     location := url;
     query := matching;
     inner_text := prop text EmptyString;
     attached := prop (fun _ => true) false;
     visible := prop shown false;
     stable := fun _ _ => true;
     enabled := prop active false;
     unobstructed := fun _ _ => true;
     next_frame := advance;
     navigate := fun u d => Some {| url := u; elements := elements d; timer := None |};
     fill_value := fun h v => update h (set_value v);
     dispatch_click := clicked |}.

Definition element (tg rl nm tx : string) : Element :=
  {| tag := tg; attrs := []; role := rl; name := nm; text := tx;
     ancestors := []; shown := true; active := true; value := EmptyString;
     onclick := None |}.

Definition with_attr (n v : string) (e : Element) : Element :=
  {| tag := tag e; attrs := (n, v) :: attrs e; role := role e; name := name e;
     text := text e; ancestors := ancestors e; shown := shown e;
     active := active e; value := value e; onclick := onclick e |}.

Definition with_onclick (n : nat) (eff : Effect) (e : Element) : Element :=
  {| tag := tag e; attrs := attrs e; role := role e; name := name e;
     text := text e; ancestors := ancestors e; shown := shown e;
     active := active e; value := value e; onclick := Some (n, eff) |}.

Definition within (a : string) (e : Element) : Element :=
  {| tag := tag e; attrs := attrs e; role := role e; name := name e;
     text := text e; ancestors := a :: ancestors e; shown := shown e;
     active := active e; value := value e; onclick := onclick e |}.

Definition hidden (e : Element) : Element :=
  {| tag := tag e; attrs := attrs e; role := role e; name := name e;
     text := text e; ancestors := ancestors e; shown := false;
     active := active e; value := value e; onclick := onclick e |}.

(** The elements the four methods look for; the login button redirects
    to the dashboard two frames after the click, and the booking button
    shows the first payment label one frame after the click.  Elements 2
    and 3 share the visible text "Login".  The two arguments alter the
    login button and the trip entry. *)
Definition app (login_button trip_entry : Element -> Element) : Document :=
  {| url := "about:blank";
     elements :=
       [ element "input" "textbox" "Email Address" EmptyString;
         element "input" "textbox" "Password Login with OTP" EmptyString;
         login_button
           (with_onclick 2 (Redirect "https://my.shuttlers.co/dashboard")
              (with_attr "data-test" "login-button"
                 (element "button" "button" "Login" "Login")));
         element "a" "link" "Login" "Login";
         element "input" "textbox" "Pick up location" EmptyString;
         element "li" "option" "Festac Town" "Festac Town, Lagos, Nigeria";
         element "input" "textbox" "Search destination" EmptyString;
         element "li" "option" "Eko Hotel" "Eko Hotel Roundabout, Lagos, Nigeria";
         within "i" (element "svg" "img" "calendar" EmptyString);
         element "span" "gridcell" "20" "20";
         with_attr "data-testid" "find-trips-btn"
           (element "button" "button" "Find trips" "Find trips");
         trip_entry (element "div" "listitem" "trip" "FST20006:00 AM");
         with_onclick 1 (Reveal 13)
           (element "button" "button" "Book Trip â‚¦" "Book Trip");
         hidden (element "label" "none" "wallet" "Pay with wallet");
         hidden (element "label" "none" "card" "Pay With card") ];
     timer := None |}.

Definition cfg : Config :=
  {| pollInterval := 100; actionTimeout := 1000; expectTimeout := 5000 |}.

Definition session (d : Document) : Core.Session (P := provider) :=
  @Core.Build_Session provider 7 d 0%N.

Definition driver : Driver := Core.driver (P := provider) cfg.

Definition start (d : Document) : State (D := driver) :=
  mkState (session d) [] [].

(** A state in which a page object for page 7 already exists at address 0. *)
Definition ready (d : Document) : State (D := driver) :=
  mkState (session d) [ {[ "page" := VPage 7 ]} ] [].

End Demo.

(** A page that is still loading.  A document is the number of frames
    since the page was opened.  Two buttons, 1 and 2, are there from the
    start; the trip entry, 5, which carries a test id and the trip's
    text, is added in the first frame and stays hidden. *)
Module DemoLate.

Definition loaded (frame : nat) : bool := negb (Nat.eqb frame 0).

Definition matching (sc : list Selector) (s : Strategy) (frame : nat) : list Handle :=
  match s with
  | TestId _ | VisibleText _ _ => if loaded frame then [5] else []
  | RoleLabel _ _ => [1; 2]
  | Css _ => []
  end.

Definition provider : DocumentProvider :=
  {| Doc := nat;
     location := fun _ => "about:blank";
     query := matching;
     inner_text := fun _ _ => EmptyString;
     attached := fun h frame =>
       Nat.eqb h 1 || Nat.eqb h 2 || (Nat.eqb h 5 && loaded frame);
     visible := fun h _ => negb (Nat.eqb h 5);
     stable := fun _ _ => true;
     enabled := fun _ _ => true;
     unobstructed := fun _ _ => true;
     next_frame := S;
     navigate := fun _ _ => Some 0;
     fill_value := fun _ _ frame => frame;
     dispatch_click := fun _ frame => frame |}.

Definition session : Core.Session (P := provider) :=
  @Core.Build_Session provider 7 0 0%N.

Definition driver : Driver := Core.driver (P := provider) Demo.cfg.

(** A state in which a page object for page 7 already exists at address 0. *)
Definition ready : State (D := driver) :=
  mkState session [ {[ "page" := VPage 7 ]} ] [].

End DemoLate.

(** A machine for the inspection script: it hands out 1, 2, 3, ... as
    identities, and rejects every operation for which [broken] holds. *)
Module DemoRuntime.

Definition runtime (broken : Op -> bool) : Runtime :=
  {| Machine := nat;
     Fault := string;
     perform := fun o m =>
       if broken o then (inl "rejected", m) else (inr (S m), S m) |}.

Definition click_breaks (o : Op) : bool :=
  match o with
  | page_call _ (click _) => true
  | _ => false
  end.

Definition start (broken : Op -> bool) : Run (R := runtime broken) :=
  mkRun 0 [].

End DemoRuntime.

(** * Part IV: properties *)

(** ** The regular-expression matcher *)

Section RegExpFacts.
Import RegExp.

Lemma append_nil_l (s : string) : EmptyString +:+ s = s.
Proof. reflexivity. Qed.

Lemma append_cons (c : ascii) (s t : string) : String c s +:+ t = String c (s +:+ t).
Proof. reflexivity. Qed.

Lemma append_nil_r (s : string) : s +:+ EmptyString = s.
Proof. induction s as [|c s IH]; [done|]. by rewrite append_cons, IH. Qed.

Lemma append_assoc (s1 s2 s3 : string) : (s1 +:+ s2) +:+ s3 = s1 +:+ (s2 +:+ s3).
Proof. induction s1 as [|c s IH]; [done|]. by rewrite !append_cons, IH. Qed.

Lemma append_eq_nil (s1 s2 : string) :
  s1 +:+ s2 = EmptyString -> s1 = EmptyString /\ s2 = EmptyString.
Proof. by destruct s1. Qed.

Lemma Matches_seq (ic : bool) (r1 r2 : regex) (s s1 s2 : string) :
  s = s1 +:+ s2 -> Matches ic r1 s1 -> Matches ic r2 s2 -> Matches ic (Seq r1 r2) s.
Proof. intros ->. apply MSeq. Qed.

Lemma Matches_seq_inv (ic : bool) (r1 r2 : regex) (s : string) :
  Matches ic (Seq r1 r2) s ->
  exists s1 s2, s = s1 +:+ s2 /\ Matches ic r1 s1 /\ Matches ic r2 s2.
Proof. inversion 1; subst; eauto. Qed.

Lemma nullable_spec (ic : bool) (r : regex) :
  nullable r = true <-> Matches ic r EmptyString.
Proof.
  split.
  - induction r; simpl; intros H; try discriminate.
    + constructor.
    + apply andb_true_iff in H as [H1 H2].
      apply (Matches_seq ic r1 r2 _ EmptyString EmptyString); auto.
    + apply orb_true_iff in H as [H|H]; [apply MAltL|apply MAltR]; auto.
    + constructor.
  - remember EmptyString as s eqn:Hs. induction 1; simpl; try discriminate; auto.
    + apply append_eq_nil in Hs as [-> ->]. rewrite IHMatches1, IHMatches2; auto.
    + rewrite IHMatches; auto.
    + rewrite IHMatches; auto. apply orb_true_r.
Qed.

Lemma Matches_void (ic : bool) (s : string) : ~ Matches ic Void s.
Proof. inversion 1. Qed.

Lemma Matches_eps (ic : bool) (s : string) : Matches ic Eps s -> s = EmptyString.
Proof. by inversion 1. Qed.

Lemma seq_spec (ic : bool) (r1 r2 : regex) (s : string) :
  Matches ic (seq r1 r2) s <-> Matches ic (Seq r1 r2) s.
Proof.
  assert (Hl : forall r, Matches ic r s <-> Matches ic (Seq Eps r) s).
  { intros r. split.
    - intros H. apply (Matches_seq ic _ _ _ EmptyString s); [done|constructor|done].
    - intros (s1 & s2 & -> & H1 & H2)%Matches_seq_inv.
      apply Matches_eps in H1 as ->. done. }
  assert (Hr : forall r, Matches ic r s <-> Matches ic (Seq r Eps) s).
  { intros r. split.
    - intros H. apply (Matches_seq ic _ _ _ s EmptyString);
        [by rewrite append_nil_r|done|constructor].
    - intros (s1 & s2 & -> & H1 & H2)%Matches_seq_inv.
      apply Matches_eps in H2 as ->. by rewrite append_nil_r. }
  assert (Hvl : forall r, Matches ic Void s <-> Matches ic (Seq Void r) s).
  { intros r. split; [by intros ?%Matches_void|].
    by intros (s1 & s2 & _ & ?%Matches_void & _)%Matches_seq_inv. }
  assert (Hvr : forall r, Matches ic Void s <-> Matches ic (Seq r Void) s).
  { intros r. split; [by intros ?%Matches_void|].
    by intros (s1 & s2 & _ & _ & ?%Matches_void)%Matches_seq_inv. }
  destruct r1, r2; simpl; auto; reflexivity.
Qed.

Lemma alt_spec (ic : bool) (r1 r2 : regex) (s : string) :
  Matches ic (alt r1 r2) s <-> Matches ic (Alt r1 r2) s.
Proof.
  assert (Hl : forall r, Matches ic r s <-> Matches ic (Alt Void r) s).
  { intros r. split; [apply MAltR|]. inversion 1; subst; [|done].
    by apply Matches_void in H3. }
  assert (Hr : forall r, Matches ic r s <-> Matches ic (Alt r Void) s).
  { intros r. split; [apply MAltL|]. inversion 1; subst; [done|].
    by apply Matches_void in H3. }
  destruct r1, r2; simpl; auto; reflexivity.
Qed.

(** A match of [r*] on a non-empty string starts with a non-empty match
    of [r]. *)
Lemma Matches_star_cons (ic : bool) (r : regex) (c : ascii) (s : string) :
  Matches ic (Star r) (String c s) ->
  exists s1 s2, s = s1 +:+ s2 /\ Matches ic r (String c s1) /\ Matches ic (Star r) s2.
Proof.
  remember (Star r) as r' eqn:Hr. remember (String c s) as s' eqn:Hs.
  intros H. revert c s Hs. induction H; intros c0 s0 Hs; try discriminate.
  inversion Hr; subst. destruct s1 as [|c1 s1]; rewrite ?append_cons, ?append_nil_l in Hs.
  - apply IHMatches2; auto.
  - inversion Hs; subst. eauto.
Qed.

Lemma deriv_spec (ic : bool) (c : ascii) (r : regex) :
  forall s, Matches ic (deriv ic c r) s <-> Matches ic r (String c s).
Proof.
  induction r; intros s; simpl.
  - split; inversion 1.
  - split; inversion 1.
  - destruct (chr_eqb ic c0 c) eqn:E; split.
    + intros ->%Matches_eps. by constructor.
    + inversion 1; subst. constructor.
    + by intros ?%Matches_void.
    + inversion 1; subst. congruence.
  - destruct (line_terminator c) eqn:E; split.
    + by intros ?%Matches_void.
    + inversion 1; subst. congruence.
    + intros ->%Matches_eps. by constructor.
    + inversion 1; subst. constructor.
  - split.
    + intros ->%Matches_eps. constructor.
    + inversion 1; subst. constructor.
  - rewrite alt_spec. split.
    + inversion 1; subst.
      * apply seq_spec, Matches_seq_inv in H3 as (s1 & s2 & -> & H1 & H2).
        apply IHr1 in H1. by apply (Matches_seq ic _ _ _ (String c s1) s2).
      * destruct (nullable r1) eqn:En; [|by apply Matches_void in H3].
        apply IHr2 in H3. apply (nullable_spec ic) in En.
        by apply (Matches_seq ic _ _ _ EmptyString (String c s)).
    + intros (s1 & s2 & Hs & H1 & H2)%Matches_seq_inv.
      destruct s1 as [|c1 s1]; rewrite ?append_cons, ?append_nil_l in Hs.
      * subst s2. apply MAltR. apply (nullable_spec ic) in H1. rewrite H1.
        by apply IHr2.
      * inversion Hs; subst. apply MAltL, seq_spec.
        apply (Matches_seq ic _ _ _ s1 s2); [done| |done]. by apply IHr1.
  - rewrite alt_spec. split.
    + inversion 1; subst; [apply MAltL, IHr1|apply MAltR, IHr2]; done.
    + inversion 1; subst; [apply MAltL, IHr1|apply MAltR, IHr2]; done.
  - rewrite seq_spec. split.
    + intros (s1 & s2 & -> & H1 & H2)%Matches_seq_inv.
      apply IHr in H1. by apply (MStarApp ic r (String c s1) s2).
    + intros (s1 & s2 & -> & H1 & H2)%Matches_star_cons.
      apply (Matches_seq ic _ _ _ s1 s2); [done| |done]. by apply IHr.
Qed.

(** The derivative matcher decides the matching relation. *)
Lemma matches_spec (ic : bool) (s : string) :
  forall r, matches ic r s = true <-> Matches ic r s.
Proof.
  induction s as [|c s IH]; intros r; simpl.
  - apply nullable_spec.
  - rewrite IH. apply deriv_spec.
Qed.

Lemma Matches_any_star (ic : bool) (s : string) : Matches ic (Star Any) s.
Proof.
  induction s as [|c s IH]; [constructor|].
  apply (MStarApp ic Any (String c EmptyString) s); [constructor|done].
Qed.

(** [re.test(s)] holds exactly when some substring of [s] matches. *)
Lemma test_spec (re : RegExp.t) (s : string) :
  test re s = true <->
  exists a m b, s = a +:+ m +:+ b /\ Matches (ignoreCase re) (source re) m.
Proof.
  unfold test. rewrite matches_spec. split.
  - intros (a & t & -> & _ & (m & b & -> & Hm & _)%Matches_seq_inv)%Matches_seq_inv.
    eauto.
  - intros (a & m & b & -> & Hm).
    apply (Matches_seq _ _ _ _ a (m +:+ b)); [done|apply Matches_any_star|].
    apply (Matches_seq _ _ _ _ m b); [done|done|apply Matches_any_star].
Qed.

Lemma Matches_lit (t m : string) : Matches false (lit t) m <-> m = t.
Proof.
  revert m. induction t as [|c t IH]; intros m; simpl.
  - split; [apply Matches_eps|intros ->; constructor].
  - split.
    + intros (s1 & s2 & -> & H1 & H2)%Matches_seq_inv.
      apply IH in H2 as ->. inversion H1; subst. simpl in *.
      by apply Ascii.eqb_eq in H0 as ->.
    + intros ->. apply (Matches_seq _ _ _ _ (String c EmptyString) t); [done| |by apply IH].
      constructor. apply Ascii.eqb_refl.
Qed.

(** [/.*dashboard.*/] accepts exactly the strings that contain
    "dashboard". *)
Lemma dashboard_re_spec (u : string) :
  test dashboard_re u = true <-> exists a b, u = a +:+ "dashboard" +:+ b.
Proof.
  rewrite test_spec. split.
  - intros (a & m & b & -> & Hm). unfold dashboard_re in Hm.
    cbn [source ignoreCase] in Hm.
    apply Matches_seq_inv in Hm as (m1 & m' & -> & _ & Hm).
    apply Matches_seq_inv in Hm as (m2 & m3 & -> & Hm & _).
    apply Matches_lit in Hm as ->.
    exists (a +:+ m1), (m3 +:+ b). by rewrite !append_assoc.
  - intros (a & b & ->). exists a, "dashboard", b. split; [done|].
    unfold dashboard_re. cbn [source ignoreCase].
    apply (Matches_seq _ _ _ _ EmptyString "dashboard"); [done|constructor|].
    apply (Matches_seq _ _ _ _ "dashboard" EmptyString); [done| |constructor].
    by apply Matches_lit.
Qed.

End RegExpFacts.

(** ** The page object, whatever the automation library does *)

Section PageObjectFacts.
Context {D : Driver}.

Lemma get_page_some (this : loc) (st : State) (p : PageHandle) :
  page_of (heap st) this = Some p -> get_page this st = (Return p, st).
Proof.
  unfold page_of, get_page. intros H.
  destruct (heap st !! this) as [o|]; [|discriminate].
  destruct (o !! "page") as [[]|]; try discriminate.
  by inversion H.
Qed.

Lemma get_page_none (this : loc) (st : State) :
  page_of (heap st) this = None ->
  exists msg, get_page this st = (Throw (TypeError msg), st).
Proof.
  unfold page_of, get_page. intros H.
  destruct (heap st !! this) as [o|]; [|eauto].
  destruct (o !! "page") as [[]|]; try discriminate; eauto.
Qed.

(** A method body, read as a script: the library runs the calls in
    order; the first rejection ends the method with that rejection. *)
Lemma run_calls_script {A} (this : loc) (p : PageHandle) (cs : list Call) (k : M A) :
  forall st, page_of (heap st) this = Some p ->
  run_calls this cs k st =
    match exec_calls p cs (browser st) with
    | (n, None, w) =>
        k {| browser := w; heap := heap st;
             log := log st ++ events_of p cs n None |}
    | (n, Some e, w) =>
        (Throw (Rejected e),
         {| browser := w; heap := heap st;
            log := log st ++ events_of p cs n (Some e) |})
    end.
Proof.
  induction cs as [|c cs IH]; intros st Hp; simpl.
  - rewrite app_nil_r. by destruct st.
  - unfold bind at 1, on_page, bind at 1. rewrite (get_page_some _ _ _ Hp).
    unfold await. destruct (exec p c (browser st)) as [[e|] w] eqn:E.
    + by destruct cs.
    + rewrite IH by exact Hp. simpl.
      destruct (exec_calls p cs w) as [[n [e|]] w']; simpl;
        by rewrite <- app_assoc.
Qed.

Lemma run_calls_no_page {A} (this : loc) (c : Call) (cs : list Call) (k : M A) :
  forall st, page_of (heap st) this = None ->
  exists msg, run_calls this (c :: cs) k st = (Throw (TypeError msg), st).
Proof.
  intros st Hp. destruct (get_page_none _ _ Hp) as [msg Hm].
  exists msg. simpl. unfold bind at 1, on_page, bind at 1. by rewrite Hm.
Qed.

Lemma run_step_calls (this : loc) (s : FlowStep) :
  run_step this s = run_calls this (calls_of s) (ret this).
Proof. by destruct s. Qed.

Lemma run_step_script (this : loc) (p : PageHandle) (s : FlowStep) (st : State) :
  page_of (heap st) this = Some p ->
  run_step this s st =
    match exec_calls p (calls_of s) (browser st) with
    | (n, r, w) =>
        (match r with
         | None => Return this
         | Some e => Throw (Rejected e)
         end,
         {| browser := w; heap := heap st;
            log := log st ++ events_of p (calls_of s) n r |})
    end.
Proof.
  intros Hp. rewrite run_step_calls, (run_calls_script _ _ _ _ _ Hp).
  by destruct (exec_calls p (calls_of s) (browser st)) as [[n [e|]] w].
Qed.

Lemma run_step_no_page (this : loc) (s : FlowStep) (st : State) :
  page_of (heap st) this = None ->
  exists msg, run_step this s st = (Throw (TypeError msg), st).
Proof.
  intros Hp. rewrite run_step_calls.
  destruct s; simpl calls_of; by apply run_calls_no_page.
Qed.

Lemma run_step_heap (this : loc) (s : FlowStep) (st : State) :
  heap (snd (run_step this s st)) = heap st.
Proof.
  destruct (page_of (heap st) this) as [p|] eqn:Hp.
  - rewrite (run_step_script _ _ _ _ Hp).
    by destruct (exec_calls p (calls_of s) (browser st)) as [[n r] w].
  - destruct (run_step_no_page _ s _ Hp) as [msg ->]. done.
Qed.

Lemma page_of_new (h : list (gmap string Val)) (page : Val) :
  page_of (h ++ [ {[ "page" := page ]} ]) (length h) =
    match page with
    | VPage p => Some p
    | _ => None
    end.
Proof.
  unfold page_of. rewrite list_lookup_middle by done.
  by rewrite lookup_singleton_eq.
Qed.

Lemma exec_calls_bounds (p : PageHandle) (cs : list Call) :
  forall w n r w', exec_calls p cs w = (n, r, w') ->
  match r with
  | None => n = length cs
  | Some _ => n < length cs
  end.
Proof.
  induction cs as [|c cs IH]; simpl; intros w n r w' H.
  - by inversion H.
  - destruct (exec p c w) as [[e|] w1].
    + inversion H; subst. lia.
    + destruct (exec_calls p cs w1) as [[n1 r1] w2] eqn:E.
      inversion H; subst. specialize (IH _ _ _ _ E).
      destruct r; simpl; lia.
Qed.

Lemma invocations_events_of (p : PageHandle) (cs : list Call) (r : option Failure) :
  forall n,
  invocations (events_of p cs n r) =
    take (match r with Some _ => S n | None => n end) cs.
Proof.
  induction cs as [|c cs IH]; intros n.
  - by destruct r, n.
  - destruct n as [|n]; simpl.
    + by destruct r.
    + rewrite IH. by destruct r.
Qed.

Lemma logged_since_app (l l' : list Event) (w : World) (h : list (gmap string Val)) :
  logged_since l {| browser := w; heap := h; log := l ++ l' |} = l'.
Proof. unfold logged_since. simpl. by rewrite drop_app_length. Qed.

(** The log of a script, event by event: call [k] starts at event [2k],
    and by then every earlier call has been fulfilled. *)
Lemma events_of_invoke (p : PageHandle) (cs : list Call) (r : option Failure) :
  forall n i q c,
  events_of p cs n r !! i = Some (Invoke q c) ->
  exists k, i = 2 * k /\ q = p /\ cs !! k = Some c /\
    forall j c', j < k -> cs !! j = Some c' ->
      events_of p cs n r !! (2 * j + 1) = Some (Settle p c' None).
Proof.
  induction cs as [|c0 cs IH]; intros n i q c H.
  - by destruct n.
  - destruct n as [|n]; simpl in H.
    + destruct r as [e|]; [|done].
      destruct i as [|[|i]]; simpl in H; try done.
      inversion H; subst. exists 0. repeat split; try done. lia.
    + destruct i as [|[|i]]; simpl in H; try done.
      * inversion H; subst. exists 0. repeat split; try done. lia.
      * destruct (IH _ _ _ _ H) as (k & -> & -> & Hk & Hbefore).
        exists (S k). repeat split; [lia|done|].
        intros [|j] c' Hj Hc'.
        { simpl in Hc'. by inversion Hc'. }
        replace (2 * S j + 1) with (S (S (2 * j + 1))) by lia.
        simpl in *. apply Hbefore; [lia|done].
Qed.

Lemma bind_unfold {A B} (m : M A) (k : A -> M B) (st : State) :
  bind m k st =
    match m st with
    | (Return a, st') => k a st'
    | (Throw e, st') => (Throw e, st')
    end.
Proof. reflexivity. Qed.

Lemma run_calls_ext {A} (this : loc) (cs : list Call) (k k' : M A) :
  (forall st, k st = k' st) ->
  forall st, run_calls this cs k st = run_calls this cs k' st.
Proof.
  intros Hk. induction cs as [|c cs IH]; intros st; simpl; [done|].
  rewrite !bind_unfold. by destruct (on_page this c st) as [[[]|e] st1].
Qed.

Lemma run_calls_bind {A B} (this : loc) (cs : list Call) (k : M A) (g : A -> M B) :
  forall st, bind (run_calls this cs k) g st = run_calls this cs (bind k g) st.
Proof.
  induction cs as [|c cs IH]; intros st; simpl; [done|].
  rewrite (bind_unfold (bind _ _)), !(bind_unfold (on_page _ _)).
  destruct (on_page this c st) as [[[]|e] st1]; [|done].
  rewrite <- IH. by rewrite bind_unfold.
Qed.

Lemma run_calls_app {A} (this : loc) (cs1 cs2 : list Call) (k : M A) :
  forall st,
  run_calls this (cs1 ++ cs2) k st = run_calls this cs1 (run_calls this cs2 k) st.
Proof.
  induction cs1 as [|c cs IH]; intros st; simpl; [done|].
  rewrite !bind_unfold. by destruct (on_page this c st) as [[[]|e] st1].
Qed.

(** A step followed by the rest of a chain is one longer script. *)
Lemma run_step_then {A} (this : loc) (s : FlowStep) (k : M A) (st : State) :
  bind (run_step this s) (fun _ => k) st = run_calls this (calls_of s) k st.
Proof.
  rewrite run_step_calls, run_calls_bind. by apply run_calls_ext.
Qed.

(** The test is the script of its four steps on a new page object. *)
Lemma Shuttler_Booking_script (page : Val) (st : State) :
  Shuttler_Booking page st =
    run_calls (length (heap st)) (flat_map calls_of booking_steps) (ret tt)
      {| browser := browser st; heap := heap st ++ [ {[ "page" := page ]} ];
         log := log st |}.
Proof.
  unfold Shuttler_Booking, new_ShuttlerSimplePage, alloc. unfold bind at 1.
  set (this := length (heap st)). set (st0 := mkState _ _ _).
  unfold booking_steps, flat_map.
  change (goto this) with (run_step this Goto).
  rewrite run_calls_app, run_step_then. apply run_calls_ext. intros st1.
  change (login this ?e ?p) with (run_step this (Login e p)).
  rewrite run_calls_app, run_step_then. apply run_calls_ext. intros st2.
  change (searchRoute this ?a ?b ?c ?d ?e) with (run_step this (SearchRoute a b c d e)).
  rewrite run_calls_app, run_step_then. apply run_calls_ext. intros st3.
  change (bookTrip this ?t) with (run_step this (BookTrip t)).
  rewrite run_calls_app, run_step_then. by apply run_calls_ext.
Qed.

(** C5.  A flow step that is fulfilled returns the page object it was
    called on: the same address, with the heap exactly as it was (no
    copy is allocated, no object is changed). *)
Theorem step_returns_same_session (s : FlowStep) (this v : loc) (st st' : State) :
  run_step this s st = (Return v, st') ->
  v = this /\ heap st' = heap st.
Proof.
  intros H. pose proof (run_step_heap this s st) as Hh. rewrite H in Hh.
  split; [|exact Hh].
  destruct (page_of (heap st) this) as [p|] eqn:Hp.
  - rewrite (run_step_script _ _ _ _ Hp) in H.
    destruct (exec_calls p (calls_of s) (browser st)) as [[n [e|]] w];
      by inversion H.
  - destruct (run_step_no_page _ s _ Hp) as [msg Hm]. congruence.
Qed.

(** C9.  No operation of the page object writes to the heap: after any
    sequence of operations every object is as it was, and the [page]
    field of a page object is still the value its constructor stored,
    the only field it has. *)
Theorem operations_leave_page_field (page : Val) (ops : list FlowStep) (st : State) :
  (forall this st0, heap (run_ops this ops st0) = heap st0) /\
  let this := length (heap st) in
  let made := snd (new_ShuttlerSimplePage page st) in
  heap (run_ops this ops made) !! this = Some {[ "page" := page ]}.
Proof.
  assert (Hframe : forall this st0, heap (run_ops this ops st0) = heap st0).
  { intros this. unfold run_ops.
    induction ops as [|op ops IH]; intros st0; simpl; [done|].
    rewrite IH. apply run_step_heap. }
  split; [exact Hframe|].
  simpl. rewrite Hframe. simpl. by apply list_lookup_middle.
Qed.

(** C7.  A flow step run on a newly made page object has the same
    outcome whenever the browser is in the same state: neither the
    outcome nor the browser it leaves depend on the address of the page
    object, on the other objects of the heap or on what was logged
    before. *)
Theorem rerun_same_outcome (page : Val) (s : FlowStep) (st1 st2 : State) :
  browser st1 = browser st2 ->
  succeeded (fst (fresh_run page s st1)) = succeeded (fst (fresh_run page s st2)) /\
  browser (snd (fresh_run page s st1)) = browser (snd (fresh_run page s st2)).
Proof.
  intros Hb.
  assert (Hrun : forall st,
    fresh_run page s st =
      run_step (length (heap st)) s
        {| browser := browser st; heap := heap st ++ [ {[ "page" := page ]} ];
           log := log st |}) by done.
  rewrite !Hrun.
  destruct page as [|x|p].
  3: { rewrite !(run_step_script _ p) by apply page_of_new. simpl. rewrite Hb.
       by destruct (exec_calls p (calls_of s) (browser st2)) as [[n [e|]] w]. }
  all: match goal with
       | |- context [ {[ "page" := ?v ]} ] =>
           destruct (run_step_no_page (length (heap st1)) s
                       {| browser := browser st1;
                          heap := heap st1 ++ [ {[ "page" := v ]} ];
                          log := log st1 |} (page_of_new _ v)) as [m1 ->];
           destruct (run_step_no_page (length (heap st2)) s
                       {| browser := browser st2;
                          heap := heap st2 ++ [ {[ "page" := v ]} ];
                          log := log st2 |} (page_of_new _ v)) as [m2 ->]
       end; done.
Qed.

(** C2, amended.  In every method the first rejected call ends the
    method: the rejection reaches the caller as it is, and the log shows
    the calls up to the rejected one and none after it.  In [login], when
    both fields are filled and the click is rejected with [e], the caller
    gets [e] itself, and [toHaveURL] is never invoked. *)
Theorem first_rejection_aborts_rest :
  (forall (s : FlowStep) (this : loc) (p : PageHandle) (st : State)
          (n : nat) (e : Failure) (w : World),
      page_of (heap st) this = Some p ->
      exec_calls p (calls_of s) (browser st) = (n, Some e, w) ->
      fst (run_step this s st) = Throw (Rejected e) /\
      invocations (logged_since (log st) (snd (run_step this s st)))
        = take (S n) (calls_of s)) /\
  (forall (this : loc) (p : PageHandle) (email password : string) (st : State)
          (e : Failure) (w1 w2 w3 : World),
      let fill_email := fill (getByRole "textbox" (Some "Email Address")) email in
      let fill_password :=
        fill (getByRole "textbox" (Some "Password Login with OTP")) password in
      let click_login := click (locator (Attr "data-test" "login-button")) in
      page_of (heap st) this = Some p ->
      exec p fill_email (browser st) = (None, w1) ->
      exec p fill_password w1 = (None, w2) ->
      exec p click_login w2 = (Some e, w3) ->
      login this email password st =
        (Throw (Rejected e),
         {| browser := w3; heap := heap st;
            log := log st ++
                   [Invoke p fill_email; Settle p fill_email None;
                    Invoke p fill_password; Settle p fill_password None;
                    Invoke p click_login; Settle p click_login (Some e)] |})).
Proof.
  split.
  - intros s this p st n e w Hp He.
    rewrite (run_step_script _ _ _ _ Hp), He. simpl.
    by rewrite logged_since_app, invocations_events_of.
  - intros this p email password st e w1 w2 w3 f1 f2 c3 Hp H1 H2 H3.
    change (login this email password) with (run_step this (Login email password)).
    rewrite (run_step_script _ _ _ _ Hp). simpl.
    fold f1 f2 c3. by rewrite H1, H2, H3.
Qed.

(** C8.  A rejection is final and nothing is undone: the method ends
    with the rejection, every call it reached was invoked once, in order
    (the rejected call is not tried again), and the browser is left as
    the rejected call left it, on top of what the fulfilled calls before
    it had done.  In [login], after a rejected click the browser is the
    one the click left, reached from the one the two fills had made. *)
Theorem rejection_is_final_nothing_undone :
  (forall (s : FlowStep) (this : loc) (p : PageHandle) (st : State)
          (n : nat) (e : Failure) (w : World),
      page_of (heap st) this = Some p ->
      exec_calls p (calls_of s) (browser st) = (n, Some e, w) ->
      let r := run_step this s st in
      fst r = Throw (Rejected e) /\
      browser (snd r) = w /\
      length (invocations (logged_since (log st) (snd r))) = S n /\
      forall i c, invocations (logged_since (log st) (snd r)) !! i = Some c ->
                  calls_of s !! i = Some c) /\
  (forall (this : loc) (p : PageHandle) (email password : string) (st : State)
          (e : Failure) (w1 w2 : World),
      page_of (heap st) this = Some p ->
      exec p (fill (getByRole "textbox" (Some "Email Address")) email) (browser st)
        = (None, w1) ->
      exec p (fill (getByRole "textbox" (Some "Password Login with OTP")) password) w1
        = (None, w2) ->
      fst (exec p (click (locator (Attr "data-test" "login-button"))) w2) = Some e ->
      fst (login this email password st) = Throw (Rejected e) /\
      browser (snd (login this email password st))
        = snd (exec p (click (locator (Attr "data-test" "login-button"))) w2)).
Proof.
  split.
  - intros s this p st n e w Hp He r. subst r.
    pose proof (exec_calls_bounds _ _ _ _ _ _ He) as Hn. simpl in Hn.
    rewrite (run_step_script _ _ _ _ Hp), He. simpl.
    rewrite logged_since_app, invocations_events_of.
    repeat split; [rewrite length_take; lia|].
    intros i c Hi. apply lookup_take_Some in Hi. tauto.
  - intros this p email password st e w1 w2 Hp H1 H2 H3.
    change (login this email password) with (run_step this (Login email password)).
    rewrite (run_step_script _ _ _ _ Hp). simpl. rewrite H1, H2.
    destruct (exec p _ w2) as [r3 w3]. simpl in H3. subst r3. done.
Qed.

Lemma script_log_in_sequence (this : loc) (cs : list Call) (st : State)
    (i : nat) (p : PageHandle) (c : Call) :
  logged_since (log st) (snd (run_calls this cs (ret tt) st)) !! i
    = Some (Invoke p c) ->
  exists k, i = 2 * k /\ cs !! k = Some c /\
    forall j c', j < k -> cs !! j = Some c' ->
      logged_since (log st) (snd (run_calls this cs (ret tt) st)) !! (2 * j + 1)
        = Some (Settle p c' None).
Proof.
  destruct (page_of (heap st) this) as [q|] eqn:Hq.
  - rewrite (run_calls_script _ _ _ _ _ Hq).
    destruct (exec_calls q cs (browser st)) as [[n [e|]] w];
      unfold ret; cbn [snd]; rewrite logged_since_app; intros H;
      destruct (events_of_invoke _ _ _ _ _ _ _ H) as (k & ? & -> & ? & ?);
      exists k; eauto.
  - destruct cs as [|c0 cs].
    + simpl. unfold logged_since. by rewrite drop_all.
    + destruct (run_calls_no_page this c0 cs (ret tt) st Hq) as [msg ->].
      simpl. unfold logged_since. by rewrite drop_all.
Qed.

(** C3.  In the test the chained steps run strictly one after the
    other.  A call is invoked only at an even position [2k] of the log,
    it is the [k]-th call of the chain goto, login, searchRoute,
    bookTrip, and every earlier call of the chain - the assertion gate
    of the step before among them - has been fulfilled before it. *)
Theorem steps_run_in_sequence (page : Val) (st : State)
    (i : nat) (p : PageHandle) (c : Call) :
  let chain := flat_map calls_of booking_steps in
  let l := logged_since (log st) (snd (Shuttler_Booking page st)) in
  l !! i = Some (Invoke p c) ->
  exists k, i = 2 * k /\ chain !! k = Some c /\
    forall j c', j < k -> chain !! j = Some c' ->
      l !! (2 * j + 1) = Some (Settle p c' None).
Proof.
  intros chain l. subst l. rewrite Shuttler_Booking_script. fold chain.
  apply (script_log_in_sequence (length (heap st)) chain
           {| browser := browser st; heap := heap st ++ [ {[ "page" := page ]} ];
              log := log st |}).
Qed.

End PageObjectFacts.

(** ** The automation core *)

Section CoreFacts.
Context {P : DocumentProvider} (cfg : Config).

Local Abbreviation tick := (Core.tick cfg).
Local Abbreviation later := (Core.later cfg).
Local Abbreviation polls := (Core.polls cfg).
Local Hint Extern 0 Driver => exact (Core.driver cfg) : typeclass_instances.

Lemma later_page_id (k : nat) (s : Core.Session) :
  Core.page_id (later k s) = Core.page_id s.
Proof. revert s. induction k as [|k IH]; intros s; simpl; [done|]. by rewrite IH. Qed.

Lemma later_clock (k : nat) (s : Core.Session) :
  Core.clock (later k s) = (Core.clock s + N.of_nat k * pollInterval cfg)%N.
Proof.
  revert s. induction k as [|k IH]; intros s.
  - simpl. lia.
  - cbn [Core.later]. rewrite IH. unfold Core.tick. simpl Core.clock. lia.
Qed.

Lemma later_doc (k : nat) (s : Core.Session) :
  Core.doc (later k s) = Nat.iter k next_frame (Core.doc s).
Proof.
  revert s. induction k as [|k IH]; intros s; [done|].
  cbn [Core.later]. rewrite IH. unfold Core.tick. simpl Core.doc.
  by rewrite Nat.iter_succ_r.
Qed.

(** Waiting [polls t] intervals takes at most [t] milliseconds. *)
Lemma polls_within (t : N) : (N.of_nat (polls t) * pollInterval cfg <= t)%N.
Proof.
  unfold Core.polls. rewrite N2Nat.id, N.mul_comm. apply N.Div0.mul_div_le.
Qed.

Lemma later_within (k : nat) (t : N) (s : Core.Session) :
  k <= polls t -> (Core.clock (later k s) <= Core.clock s + t)%N.
Proof.
  intros Hk. rewrite later_clock. pose proof (polls_within t).
  assert (N.of_nat k * pollInterval cfg <= N.of_nat (polls t) * pollInterval cfg)%N.
  { apply N.mul_le_mono_r. lia. }
  lia.
Qed.

(** The gate answers at the first observation that satisfies the
    condition, and gives up at the last one the budget allows. *)
Lemma await_poll_spec (c : Core.Condition) (n : nat) :
  forall s,
  (exists k, k <= n /\
     Core.satisfied c (Core.doc (later k s)) = true /\
     (forall j, j < k -> Core.satisfied c (Core.doc (later j s)) = false) /\
     Core.await_poll cfg n c s = (None, later k s)) \/
  ((forall j, j <= n -> Core.satisfied c (Core.doc (later j s)) = false) /\
   Core.await_poll cfg n c s =
     (Some (Core.GateTimeoutError c (Core.observed c (Core.doc (later n s)))),
      later n s)).
Proof.
  induction n as [|n IH]; intros s; simpl;
    destruct (Core.satisfied c (Core.doc s)) eqn:Hs.
  - left. exists 0. repeat split; [lia|done|lia].
  - right. split; [|done]. intros j Hj. by replace j with 0 by lia.
  - left. exists 0. repeat split; [lia|done|lia].
  - destruct (IH (tick s)) as [(k & Hk & Hsat & Hbefore & Hres)|[Hnever Hres]].
    + left. exists (S k). repeat split; [lia|done| |done].
      intros [|j] Hj; [done|]. apply Hbefore. lia.
    + right. split; [|done]. intros [|j] Hj; [done|]. apply Hnever. lia.
Qed.

(** The executor acts at the first observation at which every
    precondition holds, and gives up at the last one the budget allows,
    naming the first precondition that fails there. *)
Lemma act_poll_spec (h : Handle) (a : Core.ActionKind) (payload : string) (n : nat) :
  forall s,
  (exists k, k <= n /\
     Core.first_failing h (Core.doc (later k s)) = None /\
     Core.act_poll cfg n h a payload s =
       (None, Core.with_doc (Core.perform h a payload (Core.doc (later k s)))
                (later k s))) \/
  (exists c,
     (forall j, j <= n -> Core.first_failing h (Core.doc (later j s)) <> None) /\
     Core.first_failing h (Core.doc (later n s)) = Some c /\
     Core.act_poll cfg n h a payload s =
       (Some (Core.ActionError (Core.reason c)), later n s)).
Proof.
  induction n as [|n IH]; intros s; simpl;
    destruct (Core.first_failing h (Core.doc s)) as [c|] eqn:Hs.
  - right. exists c. split; [|by split].
    intros j Hj. replace j with 0 by lia. simpl. congruence.
  - left. exists 0. split; [lia|by split].
  - destruct (IH (tick s)) as [(k & Hk & Hok & Hres)|(c' & Hnever & Hlast & Hres)].
    + left. exists (S k). split; [lia|by split].
    + right. exists c'. split; [|by split].
      intros [|j] Hj; [simpl; congruence|]. apply Hnever. lia.
  - left. exists 0. split; [lia|by split].
Qed.

Lemma later_add (a b : nat) (s : Core.Session) :
  later (a + b) s = later b (later a s).
Proof. revert s. induction a as [|a IH]; intros s; [done|]. apply IH. Qed.

(** An attempt ends some [k] polls later, within its budget, and leaves
    the rest of it. *)
Lemma attempt_poll_later (d : ElementDescriptor) (st : Strategy) (n : nat) :
  forall s, exists k, k <= n /\
    snd (fst (Core.attempt_poll cfg n d st s)) = later k s /\
    snd (Core.attempt_poll cfg n d st s) = n - k.
Proof.
  induction n as [|n IH]; intros s; simpl.
  - exists 0. destruct (Core.select d _); simpl; split; try lia; by split.
  - destruct (Core.select d _); simpl.
    + exists 0. split; [lia|]. split; [done|lia].
    + destruct (IH (tick s)) as (k & Hk & Hs & Hn). exists (S k).
      split; [lia|]. split; [done|]. simpl. lia.
    + destruct (IH (tick s)) as (k & Hk & Hs & Hn). exists (S k).
      split; [lia|]. split; [done|]. simpl. lia.
Qed.

(** An attempt answers at the first observation at which its strategy
    matches one element, when it matched none before. *)
Lemma attempt_poll_found (d : ElementDescriptor) (st : Strategy) (h : Handle)
    (n k : nat) :
  forall s,
  k <= n ->
  (forall j, j < k -> Core.candidates d st (Core.doc (later j s)) = []) ->
  Core.candidates d st (Core.doc (later k s)) = [h] ->
  Core.attempt_poll cfg n d st s = (Some h, later k s, n - k).
Proof.
  revert k. induction n as [|n IH]; intros k s Hk Hbefore Hfound.
  - replace k with 0 in * by lia. simpl in *. by rewrite Hfound.
  - destruct k as [|k]; simpl in *.
    + by rewrite Hfound.
    + pose proof (Hbefore 0 ltac:(lia)) as H0. simpl in H0. rewrite H0. simpl.
      apply IH; [lia| |done].
      intros j Hj. apply (Hbefore (S j)). lia.
Qed.

(** Resolution ends some [k] polls later, within its budget, and leaves
    the rest of it. *)
Lemma resolve_from_later (d : ElementDescriptor) (ss : list Strategy) :
  forall n s, exists k, k <= n /\
    snd (fst (Core.resolve_from cfg n d ss s)) = later k s /\
    snd (Core.resolve_from cfg n d ss s) = n - k.
Proof.
  induction ss as [|st ss IH]; intros n s; simpl.
  - exists 0. repeat split; [lia|lia].
  - destruct (attempt_poll_later d st n s) as (k1 & Hk1 & Hs1 & Hn1).
    destruct (Core.attempt_poll cfg n d st s) as [[[h|] s1] n1]; simpl in *; subst.
    + exists k1. by repeat split.
    + destruct (IH (n - k1) (later k1 s)) as (k2 & Hk2 & Hs2 & Hn2).
      exists (k1 + k2). split; [lia|]. rewrite later_add. split; [done|]. lia.
Qed.

Lemma resolve_from_page_id (d : ElementDescriptor) (ss : list Strategy) (n : nat)
    (s : Core.Session) :
  Core.page_id (snd (fst (Core.resolve_from cfg n d ss s))) = Core.page_id s.
Proof.
  destruct (resolve_from_later d ss n s) as (k & _ & -> & _). apply later_page_id.
Qed.

Lemma act_poll_page_id (h : Handle) (a : Core.ActionKind) (payload : string) (n : nat) :
  forall s, Core.page_id (snd (Core.act_poll cfg n h a payload s)) = Core.page_id s.
Proof.
  induction n as [|n IH]; intros s; simpl;
    destruct (Core.first_failing h (Core.doc s)); try done.
  by rewrite IH.
Qed.

Lemma await_poll_page_id (c : Core.Condition) (n : nat) :
  forall s, Core.page_id (snd (Core.await_poll cfg n c s)) = Core.page_id s.
Proof.
  induction n as [|n IH]; intros s; simpl;
    destruct (Core.satisfied c (Core.doc s)); try done.
  by rewrite IH.
Qed.

(** A session keeps its page, whatever is run on it. *)
Lemma run_page_id (p : PageHandle) (c : Call) (s : Core.Session) :
  Core.page_id (snd (Core.run cfg p c s)) = Core.page_id s.
Proof.
  assert (Hpair : forall d a payload,
    Core.page_id (snd (Core.locate_and_act cfg d a payload s)) = Core.page_id s).
  { intros d a payload. unfold Core.locate_and_act, Core.resolve_within.
    pose proof (resolve_from_page_id d (Core.by_priority (strategies d))
                  (polls (actionTimeout cfg)) s) as Hr.
    destruct (Core.resolve_from _ _ _ _ _) as [[[h|e] s1] n1]; simpl in *; [|done].
    by rewrite act_poll_page_id. }
  unfold Core.run. destruct (negb _); [done|].
  destruct c as [u|d v|d|re t|d]; simpl.
  - by destruct (navigate u (Core.doc s)).
  - apply Hpair.
  - apply Hpair.
  - apply await_poll_page_id.
  - apply await_poll_page_id.
Qed.

(** Only the page of the session is served. *)
Lemma run_fulfilled_page (p : PageHandle) (c : Call) (s s' : Core.Session) :
  Core.run cfg p c s = (None, s') -> p = Core.page_id s /\ Core.page_id s' = p.
Proof.
  intros H. pose proof (run_page_id p c s) as Hid. rewrite H in Hid. simpl in Hid.
  unfold Core.run in H. destruct (Nat.eqb_spec p (Core.page_id s)) as [->|]; [|done].
  done.
Qed.

Lemma locate_label (dc : Doc) :
  Core.locate (first (filter_hasText pay_with_re (locator (Tag "label")))) dc
    = Core.first_pay_with_label dc.
Proof.
  unfold Core.locate, Core.first_pay_with_label. simpl.
  unfold Core.candidates. simpl.
  by destruct (List.filter _ _) as [|h [|h' t]].
Qed.

(** C1.  [login] is fulfilled only after its gate has seen the URL
    match [/.*dashboard.*/]: if [login] returns, the two fills and the
    click were fulfilled, and at some observation [k] of the gate, within
    the 30000 ms it was given, the URL of the document matched; [login]
    returns in the session of that observation, whose URL contains
    "dashboard", and no earlier observation matched. *)
Theorem login_returns_after_dashboard_seen
    (this v : loc) (email password : string)
    (st st' : State (D := Core.driver cfg)) :
  login this email password st = (Return v, st') ->
  exists (p : PageHandle) (s1 s2 s3 : Core.Session) (k : nat),
    Core.run cfg p (fill (getByRole "textbox" (Some "Email Address")) email)
      (browser st) = (None, s1) /\
    Core.run cfg p (fill (getByRole "textbox" (Some "Password Login with OTP")) password)
      s1 = (None, s2) /\
    Core.run cfg p (click (locator (Attr "data-test" "login-button"))) s2 = (None, s3) /\
    k <= polls 30000 /\
    (forall j, j < k ->
       RegExp.test dashboard_re (location (Core.doc (later j s3))) = false) /\
    RegExp.test dashboard_re (location (Core.doc (later k s3))) = true /\
    browser st' = later k s3 /\
    exists a b, location (Core.doc (later k s3)) = a +:+ "dashboard" +:+ b.
Proof.
  intros H.
  change (login this email password) with (run_step this (Login email password)) in H.
  destruct (page_of (heap st) this) as [p|] eqn:Hp.
  2: { destruct (run_step_no_page this (Login email password) st Hp) as [m Hm].
       rewrite Hm in H. discriminate. }
  rewrite (run_step_script _ _ _ _ Hp) in H. cbn [calls_of exec_calls exec Core.driver] in H.
  destruct (Core.run cfg p _ (browser st)) as [[e|] s1] eqn:E1; [discriminate|].
  destruct (Core.run cfg p _ s1) as [[e|] s2] eqn:E2; [discriminate|].
  destruct (Core.run cfg p _ s2) as [[e|] s3] eqn:E3; [discriminate|].
  destruct (Core.run cfg p _ s3) as [[e|] s4] eqn:E4; [discriminate|].
  inversion H; subst; clear H. cbn [browser].
  unfold Core.run in E4. destruct (negb _); [discriminate|].
  unfold Core.await in E4.
  destruct (await_poll_spec (Core.UrlMatches dashboard_re) (polls 30000) s3)
    as [(k & Hk & Hsat & Hbefore & Hres)|[_ Hres]];
    rewrite E4 in Hres; [|discriminate].
  inversion Hres; subst. exists p, s1, s2, s3, k. repeat split; try done.
  by apply dashboard_re_spec.
Qed.

(** C10.  [bookTrip] returns exactly when both clicks are fulfilled and
    the first [label] whose text matches [/pay with/i] is seen visible
    at some observation within the assertion timeout; it then returns
    the page object, in the session of that observation.  In every
    other case it ends with an error. *)
Theorem bookTrip_returns_iff_label_seen
    (this : loc) (tripId : string) (p : PageHandle)
    (st : State (D := Core.driver cfg)) :
  let click_trip := click (getByText tripId false) in
  let click_book := click (getByRole "button" (Some "Book Trip â‚¦")) in
  let label_shown := fun s : Core.Session =>
    exists h, Core.first_pay_with_label (Core.doc s) = Some h /\
              visible h (Core.doc s) = true in
  let seen := fun s' : Core.Session =>
    exists s1 s2 k,
      Core.run cfg p click_trip (browser st) = (None, s1) /\
      Core.run cfg p click_book s1 = (None, s2) /\
      k <= polls (expectTimeout cfg) /\ s' = later k s2 /\ label_shown s' in
  page_of (heap st) this = Some p ->
  (forall v st', bookTrip this tripId st = (Return v, st') ->
                 v = this /\ seen (browser st')) /\
  ((exists s', seen s') -> exists st', bookTrip this tripId st = (Return this, st')) /\
  (~ (exists s', seen s') -> exists e st', bookTrip this tripId st = (Throw e, st')).
Proof.
  intros click_trip click_book label_shown seen Hp.
  set (gate := Core.ElementVisible
                 (first (filter_hasText pay_with_re (locator (Tag "label"))))).
  assert (Hsat : forall s, Core.satisfied gate (Core.doc s) = true <-> label_shown s).
  { intros s. unfold gate, label_shown. simpl. rewrite locate_label.
    destruct (Core.first_pay_with_label (Core.doc s)) as [h|].
    - split; [eauto|]. by intros (h' & [= <-] & ?).
    - split; [done|]. by intros (h' & ? & ?). }
  assert (Hscript : bookTrip this tripId st =
    match Core.run cfg p click_trip (browser st) with
    | (Some e, s1) => (Throw (Rejected e),
        {| browser := s1; heap := heap st;
           log := log st ++ [Invoke p click_trip; Settle p click_trip (Some e)] |})
    | (None, s1) =>
      match Core.run cfg p click_book s1 with
      | (Some e, s2) => (Throw (Rejected e),
          {| browser := s2; heap := heap st;
             log := log st ++ [Invoke p click_trip; Settle p click_trip None;
                               Invoke p click_book; Settle p click_book (Some e)] |})
      | (None, s2) =>
        match Core.await_poll cfg (polls (expectTimeout cfg)) gate s2 with
        | (r, s3) =>
            (match r with None => Return this | Some e => Throw (Rejected e) end,
             {| browser := s3; heap := heap st;
                log := log st ++
                  [Invoke p click_trip; Settle p click_trip None;
                   Invoke p click_book; Settle p click_book None;
                   Invoke p (toBeVisible (first (filter_hasText pay_with_re
                                                   (locator (Tag "label")))));
                   Settle p (toBeVisible (first (filter_hasText pay_with_re
                                                   (locator (Tag "label"))))) r] |})
        end
      end
    end).
  { change (bookTrip this tripId) with (run_step this (BookTrip tripId)).
    rewrite (run_step_script _ _ _ _ Hp).
    cbn [calls_of exec_calls exec Core.driver]. fold click_trip click_book.
    destruct (Core.run cfg p click_trip (browser st)) as [[e|] s1] eqn:E1; [done|].
    destruct (Core.run cfg p click_book s1) as [[e|] s2] eqn:E2; [done|].
    destruct (run_fulfilled_page _ _ _ _ E2) as [_ Hid].
    unfold Core.run at 1. rewrite Hid, Nat.eqb_refl. cbn [negb]. unfold Core.await.
    fold gate. by destruct (Core.await_poll _ _ _ _) as [[e|] s3]. }
  assert (Hret : forall v st', bookTrip this tripId st = (Return v, st') ->
                               v = this /\ seen (browser st')).
  { intros v st' H. rewrite Hscript in H.
    destruct (Core.run cfg p click_trip (browser st)) as [[e|] s1] eqn:E1; [done|].
    destruct (Core.run cfg p click_book s1) as [[e|] s2] eqn:E2; [done|].
    destruct (await_poll_spec gate (polls (expectTimeout cfg)) s2)
      as [(k & Hk & Hok & _ & Hres)|[_ Hres]]; rewrite Hres in H; [|done].
    inversion H; subst. split; [done|]. cbn [browser].
    exists s1, s2, k. repeat split; try done. by apply Hsat. }
  split; [exact Hret|]. split.
  - intros (s' & s1 & s2 & k & E1 & E2 & Hk & -> & Hshown).
    rewrite Hscript, E1, E2.
    destruct (await_poll_spec gate (polls (expectTimeout cfg)) s2)
      as [(k' & _ & _ & _ & Hres)|[Hnever _]].
    + rewrite Hres. eauto.
    + apply Hsat in Hshown. rewrite (Hnever k Hk) in Hshown. done.
  - intros Hnot.
    destruct (bookTrip this tripId st) as [[v|e] st'] eqn:E; [|eauto].
    destruct (Hret _ _ eq_refl) as [_ Hseen]. exfalso. eauto.
Qed.

Lemma first_failing_None (h : Handle) (dc : Doc) :
  Core.first_failing h dc = None -> Core.actionable h dc = true.
Proof.
  unfold Core.first_failing, Core.preconditions, Core.actionable. simpl.
  destruct (attached h dc), (visible h dc), (stable h dc), (enabled h dc),
    (unobstructed h dc); simpl; by intros.
Qed.

Lemma first_failing_names (h : Handle) (dc : Doc) (c : Core.Precondition) :
  Core.first_failing h dc = Some c ->
  Core.names_first_failing h dc (Core.reason c).
Proof.
  unfold Core.first_failing, Core.preconditions, Core.names_first_failing. simpl.
  destruct (attached h dc), (visible h dc), (stable h dc), (enabled h dc),
    (unobstructed h dc); simpl; intros [= <-]; repeat split; by intros.
Qed.

Lemma act_poll_clock (h : Handle) (a : Core.ActionKind) (payload : string)
    (n : nat) (s : Core.Session) :
  exists k, k <= n /\
    Core.clock (snd (Core.act_poll cfg n h a payload s)) = Core.clock (later k s).
Proof.
  destruct (act_poll_spec h a payload n s)
    as [(k & Hk & _ & ->)|(c & _ & _ & ->)]; eauto.
Qed.

(** On an element that is actionable at no observation the budget
    allows, the executor gives up at the last one and names the first
    precondition failing there. *)
Lemma act_poll_never (h : Handle) (a : Core.ActionKind) (payload : string)
    (n : nat) (s : Core.Session) :
  (forall j, j <= n -> Core.actionable h (Core.doc (later j s)) = false) ->
  exists r,
    Core.act_poll cfg n h a payload s = (Some (Core.ActionError r), later n s) /\
    Core.names_first_failing h (Core.doc (later n s)) r.
Proof.
  intros Hn.
  destruct (act_poll_spec h a payload n s)
    as [(k & Hk & Hok & _)|(c & _ & Hlast & Hres)].
  - apply first_failing_None in Hok. rewrite (Hn k Hk) in Hok. discriminate.
  - exists (Core.reason c). split; [done|]. by apply first_failing_names.
Qed.

(** A locator action, finding the element and acting on it, stays
    within the one timeout. *)
Lemma locate_and_act_clock (d : ElementDescriptor) (a : Core.ActionKind)
    (payload : string) (s : Core.Session) :
  (Core.clock (snd (Core.locate_and_act cfg d a payload s))
     <= Core.clock s + actionTimeout cfg)%N.
Proof.
  unfold Core.locate_and_act, Core.resolve_within.
  destruct (resolve_from_later d (Core.by_priority (strategies d))
              (polls (actionTimeout cfg)) s) as (k & Hk & Hs & Hn).
  destruct (Core.resolve_from _ _ _ _ _) as [[[h|e] s1] n1]; simpl in *; subst.
  - destruct (act_poll_clock h a payload (polls (actionTimeout cfg) - k) (later k s))
      as (k' & Hk' & ->).
    rewrite <- later_add. apply later_within. lia.
  - by apply later_within.
Qed.

(** C6.  An action wait is bounded, and a failed one says why.  [act]
    answers within the configured action timeout whatever the element
    does, and so does a whole locator action, the search for the element
    included.  On an element that is actionable at no observation of
    that time, [act] performs nothing and answers with a not-actionable
    error whose reason is decided by the last observation: "not
    attached" when the element is not attached, else "not visible" when
    it is hidden, else "not stable", else "not enabled", else
    "intercepted by an overlay".  So does [bookTrip] when the trip entry
    appears, at once or some polls later, and is never actionable in
    what is left of the time. *)
Theorem action_wait_is_bounded :
  (forall (h : Handle) (a : Core.ActionKind) (payload : string) (s : Core.Session),
      (Core.clock (snd (Core.act cfg s h a payload))
         <= Core.clock s + actionTimeout cfg)%N) /\
  (forall (d : ElementDescriptor) (a : Core.ActionKind) (payload : string)
          (s : Core.Session),
      (Core.clock (snd (Core.locate_and_act cfg d a payload s))
         <= Core.clock s + actionTimeout cfg)%N) /\
  (forall (h : Handle) (a : Core.ActionKind) (payload : string) (s : Core.Session),
      (forall j, j <= polls (actionTimeout cfg) ->
                 Core.actionable h (Core.doc (later j s)) = false) ->
      let s' := later (polls (actionTimeout cfg)) s in
      exists r,
        Core.act cfg s h a payload = (Some (Core.ActionError r), s') /\
        Core.names_first_failing h (Core.doc s') r) /\
  (forall (this : loc) (tripId : string) (h : Handle) (k : nat)
          (st : State (D := Core.driver cfg)),
      page_of (heap st) this = Some (Core.page_id (browser st)) ->
      k <= polls (actionTimeout cfg) ->
      (forall j, j < k ->
         query [] (VisibleText tripId false) (Core.doc (later j (browser st))) = []) ->
      query [] (VisibleText tripId false) (Core.doc (later k (browser st))) = [h] ->
      (forall j, k <= j <= polls (actionTimeout cfg) ->
         Core.actionable h (Core.doc (later j (browser st))) = false) ->
      let s' := later (polls (actionTimeout cfg)) (browser st) in
      exists r st',
        bookTrip this tripId st = (Throw (Rejected (Core.ActionError r)), st') /\
        browser st' = s' /\
        Core.names_first_failing h (Core.doc s') r /\
        (Core.clock s' <= Core.clock (browser st) + actionTimeout cfg)%N).
Proof.
  split; [|split; [|split]].
  - intros h a payload s. unfold Core.act.
    destruct (act_poll_clock h a payload (polls (actionTimeout cfg)) s)
      as (k & Hk & ->).
    by apply later_within.
  - apply locate_and_act_clock.
  - intros h a payload s Hn s'. unfold Core.act. by apply act_poll_never.
  - intros this tripId h k st Hp Hk Hbefore Hfound Hn s'.
    set (N := polls (actionTimeout cfg)) in *.
    destruct (act_poll_never h Core.ClickAction EmptyString (N - k)
                (later k (browser st))) as (r & Hact & Hname).
    { intros j Hj. rewrite <- later_add. apply Hn. lia. }
    rewrite <- later_add in Hact, Hname.
    replace (k + (N - k)) with N in Hact, Hname by lia.
    exists r. eexists. split; [|split; [|split]].
    + change (bookTrip this tripId) with (run_step this (BookTrip tripId)).
      rewrite (run_step_script _ _ _ _ Hp).
      cbn [calls_of exec_calls exec Core.driver].
      unfold Core.run at 1. rewrite Nat.eqb_refl. cbn [negb].
      unfold Core.locate_and_act, Core.resolve_within. fold N.
      change (Core.by_priority (strategies (getByText tripId false)))
        with [VisibleText tripId false].
      cbn [Core.resolve_from].
      rewrite (attempt_poll_found (getByText tripId false) (VisibleText tripId false)
                 h N k (browser st) Hk Hbefore Hfound).
      rewrite Hact. reflexivity.
    + done.
    + done.
    + by apply later_within.
Qed.













End CoreFacts.

(** ** Runs on the demo document *)

Example dashboard_re_accepts :
  RegExp.test dashboard_re "https://my.shuttlers.co/dashboard/home" = true /\
  RegExp.test dashboard_re "https://my.shuttlers.co/auth/login" = false.
Proof. by vm_compute. Qed.

Example pay_with_re_ignores_case :
  RegExp.test pay_with_re "Pay With card" = true /\
  RegExp.test pay_with_re "Payment" = false.
Proof. by vm_compute. Qed.

(** The two locators of the source that go by a test attribute find
    their element among elements with the same role or text. *)
Example source_test_locators_resolve :
  let s := Demo.session (Demo.app id id) in
  Core.resolve (P := Demo.provider) Demo.cfg s (getByTestId "find-trips-btn") 1000
    = (inl 10, s) /\
  Core.resolve (P := Demo.provider) Demo.cfg s
    (locator (Attr "data-test" "login-button")) 1000 = (inl 2, s).
Proof. by vm_compute. Qed.

(** The whole test passes on the demo document. *)
Example Shuttler_Booking_passes :
  fst (Shuttler_Booking (D := Demo.driver) (VPage 7) (Demo.start (Demo.app id id)))
    = Return tt.
Proof. vm_compute. reflexivity. Qed.

(** With a hidden login button the test stops at the click, after one
    second of waiting, with both fields still filled. *)
Example Shuttler_Booking_stops_at_hidden_button :
  let r := Shuttler_Booking (D := Demo.driver) (VPage 7)
             (Demo.start (Demo.app Demo.hidden id)) in
  fst r = Throw (Rejected (Core.ActionError "not visible")) /\
  Core.clock (browser (snd r)) = 1000%N /\
  List.map Demo.value (take 2 (Demo.elements (Core.doc (browser (snd r)))))
    = ["jamesswagz24@gmail.com"; "TestPassword"].
Proof. vm_compute. repeat split. Qed.

Lemma login_returns_after_dashboard_seen_witness :
  let st := Demo.ready (Demo.app id id) in
  let r := login (D := Demo.driver) 0 "jamesswagz24@gmail.com" "TestPassword" st in
  r = (Return 0, snd r) /\
  exists (s3 : Core.Session (P := Demo.provider)) (k : nat),
    k <= Core.polls Demo.cfg 30000 /\
    RegExp.test dashboard_re (location (Core.doc (Core.later Demo.cfg k s3))) = true /\
    browser (snd r) = Core.later Demo.cfg k s3.
Proof.
  intros st r.
  assert (H : r = (Return 0, snd r)) by (vm_compute; reflexivity).
  split; [exact H|].
  destruct (login_returns_after_dashboard_seen (P := Demo.provider) Demo.cfg
              0 0 "jamesswagz24@gmail.com" "TestPassword" st (snd r) H)
    as (p & s1 & s2 & s3 & k & _ & _ & _ & Hk & _ & Hurl & Hst & _).
  exists s3, k. repeat split; assumption.
Defined.

Lemma step_returns_same_session_witness :
  let st := Demo.ready (Demo.app id id) in
  let r := run_step (D := Demo.driver) 0 Goto st in
  r = (Return 0, snd r) /\ 0 = 0 /\ heap (snd r) = heap st.
Proof.
  intros st r.
  assert (H : r = (Return 0, snd r)) by (vm_compute; reflexivity).
  split; [exact H|].
  exact (step_returns_same_session (D := Demo.driver) Goto 0 0 st (snd r) H).
Defined.

Lemma rerun_same_outcome_witness :
  let s := Login "jamesswagz24@gmail.com" "TestPassword" in
  let st1 := Demo.start (Demo.app id id) in
  let st2 := Demo.ready (Demo.app id id) in
  browser st1 = browser st2 /\
  succeeded (fst (fresh_run (D := Demo.driver) (VPage 7) s st1))
    = succeeded (fst (fresh_run (D := Demo.driver) (VPage 7) s st2)) /\
  browser (snd (fresh_run (D := Demo.driver) (VPage 7) s st1))
    = browser (snd (fresh_run (D := Demo.driver) (VPage 7) s st2)).
Proof.
  intros s st1 st2.
  assert (H : browser st1 = browser st2) by reflexivity.
  split; [exact H|].
  exact (rerun_same_outcome (D := Demo.driver) (VPage 7) s st1 st2 H).
Defined.

Lemma steps_run_in_sequence_witness :
  let st := Demo.start (Demo.app id id) in
  let l := logged_since (log st) (snd (Shuttler_Booking (D := Demo.driver) (VPage 7) st)) in
  let first_of_searchRoute := fill (getByRole "textbox" (Some "Pick up location")) "festac" in
  l !! 10 = Some (Invoke 7 first_of_searchRoute) /\
  l !! 9 = Some (Settle 7 (toHaveURL dashboard_re 30000) None).
Proof.
  intros st l c.
  assert (H : l !! 10 = Some (Invoke 7 c)) by (vm_compute; reflexivity).
  split; [exact H|].
  destruct (steps_run_in_sequence (D := Demo.driver) (VPage 7) st 10 7 c H)
    as (k & Hk & _ & Hbefore).
  assert (k = 5) as -> by lia.
  exact (Hbefore 4 (toHaveURL dashboard_re 30000) ltac:(lia) eq_refl).
Defined.

(** C2, as stated, fails: with the login button hidden, both fills are
    fulfilled and the click is rejected, and what reaches the caller of
    [login] is the click's own error; it is not a [FlowError] and carries
    no step index. *)
Lemma login_click_error_not_wrapped :
  let st := Demo.ready (Demo.app Demo.hidden id) in
  let r := login (D := Demo.driver) 0 "jamesswagz24@gmail.com" "TestPassword" st in
  invocations (logged_since (log st) (snd r)) =
    [fill (getByRole "textbox" (Some "Email Address")) "jamesswagz24@gmail.com";
     fill (getByRole "textbox" (Some "Password Login with OTP")) "TestPassword";
     click (locator (Attr "data-test" "login-button"))] /\
  last (logged_since (log st) (snd r)) =
    Some (Settle 7 (click (locator (Attr "data-test" "login-button")))
            (Some (Core.ActionError "not visible"))) /\
  fst r = Throw (Rejected (Core.ActionError "not visible")) /\
  ~ (exists cause, fst r = Throw (Rejected (Core.FlowError 2 cause))).
Proof.
  intros st r.
  assert (H : fst r = Throw (Rejected (Core.ActionError "not visible")))
    by (vm_compute; reflexivity).
  split; [vm_compute; reflexivity|]. split; [vm_compute; reflexivity|].
  split; [exact H|].
  intros [cause Hc]. rewrite H in Hc. discriminate.
Qed.

Lemma first_rejection_aborts_rest_witness :
  let st := Demo.ready (Demo.app Demo.hidden id) in
  let s := Login "jamesswagz24@gmail.com" "TestPassword" in
  let e := Core.ActionError "not visible" in
  let w := snd (exec_calls (D := Demo.driver) 7 (calls_of s) (browser st)) in
  page_of (heap st) 0 = Some 7 /\
  exec_calls (D := Demo.driver) 7 (calls_of s) (browser st) = (2, Some e, w) /\
  fst (run_step (D := Demo.driver) 0 s st) = Throw (Rejected e) /\
  invocations (logged_since (log st) (snd (run_step (D := Demo.driver) 0 s st)))
    = take 3 (calls_of s).
Proof.
  intros st s e w.
  assert (Hp : page_of (heap st) 0 = Some 7) by (vm_compute; reflexivity).
  assert (He : exec_calls (D := Demo.driver) 7 (calls_of s) (browser st) = (2, Some e, w))
    by (vm_compute; reflexivity).
  split; [exact Hp|]. split; [exact He|].
  exact (proj1 (first_rejection_aborts_rest (D := Demo.driver)) s 0 7 st 2 e w Hp He).
Defined.

Lemma rejection_is_final_nothing_undone_witness :
  let st := Demo.ready (Demo.app Demo.hidden id) in
  let email := "jamesswagz24@gmail.com" in
  let password := "TestPassword" in
  let e := Core.ActionError "not visible" in
  let w1 := snd (exec (Driver := Demo.driver) 7
                   (fill (getByRole "textbox" (Some "Email Address")) email) (browser st)) in
  let w2 := snd (exec (Driver := Demo.driver) 7
                   (fill (getByRole "textbox" (Some "Password Login with OTP")) password) w1) in
  let r := login (D := Demo.driver) 0 email password st in
  fst r = Throw (Rejected e) /\
  browser (snd r)
    = snd (exec (Driver := Demo.driver) 7
             (click (locator (Attr "data-test" "login-button"))) w2) /\
  List.map Demo.value (take 2 (Demo.elements (Core.doc (browser (snd r)))))
    = [email; password].
Proof.
  intros st email password e w1 w2 r.
  destruct (proj2 (rejection_is_final_nothing_undone (D := Demo.driver))
              0 7 email password st e w1 w2)
    as [Hr Hb]; try (vm_compute; reflexivity).
  split; [exact Hr|]. split; [exact Hb|]. vm_compute. reflexivity.
Defined.

Lemma bookTrip_returns_iff_label_seen_witness :
  let st := Demo.ready (Demo.app id id) in
  let r := bookTrip (D := Demo.driver) 0 "FST20006:00 AM" st in
  page_of (heap st) 0 = Some 7 /\
  r = (Return 0, snd r) /\
  exists h, Core.first_pay_with_label (P := Demo.provider) (Core.doc (browser (snd r))) = Some h /\
            visible (DocumentProvider := Demo.provider) h (Core.doc (browser (snd r))) = true.
Proof.
  intros st r.
  assert (Hp : page_of (heap st) 0 = Some 7) by (vm_compute; reflexivity).
  assert (H : r = (Return 0, snd r)) by (vm_compute; reflexivity).
  split; [exact Hp|]. split; [exact H|].
  destruct (bookTrip_returns_iff_label_seen (P := Demo.provider) Demo.cfg
              0 "FST20006:00 AM" 7 st Hp) as [Hret _].
  destruct (Hret 0 (snd r) H) as [_ (s1 & s2 & k & _ & _ & _ & _ & Hshown)].
  exact Hshown.
Defined.

(** On the page that is still loading, the trip entry is found one poll
    after the click on it began and is never shown: the click is
    rejected with "not visible" when the action timeout is spent, the
    search for the entry included. *)
Lemma action_wait_is_bounded_witness :
  let st := DemoLate.ready in
  let r := bookTrip (D := DemoLate.driver) 0 "FST20006:00 AM" st in
  query (DocumentProvider := DemoLate.provider) [] (VisibleText "FST20006:00 AM" false)
    (Core.doc (browser st)) = [] /\
  fst r = Throw (Rejected (Core.ActionError "not visible")) /\
  Core.clock (browser (snd r)) = actionTimeout Demo.cfg.
Proof.
  intros st r.
  destruct (proj2 (proj2 (proj2 (action_wait_is_bounded (P := DemoLate.provider) Demo.cfg)))
              0 "FST20006:00 AM" 5 1 st)
    as (c & st' & Hr & Hb & Hname & _).
  - vm_compute. reflexivity.
  - vm_compute. lia.
  - intros j Hj. assert (j = 0) as -> by lia. vm_compute. reflexivity.
  - vm_compute. reflexivity.
  - intros j [_ Hj].
    do 11 (destruct j as [|j]; [vm_compute; reflexivity|]).
    vm_compute in Hj. lia.
  - split; [vm_compute; reflexivity|].
    assert (Hr' : r = (Throw (Rejected (Core.ActionError c)), st')) by exact Hr.
    destruct Hname as (_ & Hhidden & _).
    assert (Hc : c = "not visible") by (apply Hhidden; vm_compute; reflexivity).
    rewrite Hr', Hc. cbn [fst snd]. split; [reflexivity|].
    etransitivity; [exact (f_equal Core.clock Hb)|]. vm_compute. reflexivity.
Defined.


(** * Part V: further properties of the code *)

(** ** The two patterns of the page object *)

Section PatternFacts.
Import RegExp.

Lemma chr_eqb_ignore_case (a c : ascii) :
  chr_eqb true a c = true <-> to_lower a = to_lower c.
Proof. unfold chr_eqb. apply Ascii.eqb_eq. Qed.

Lemma Matches_lit_ignore_case (t : string) :
  forall m, Matches true (lit t) m <-> lower m = lower t.
Proof.
  induction t as [|c t IH]; intros m; cbn [lit lower].
  - split.
    + by intros ->%Matches_eps.
    + destruct m; [constructor|discriminate].
  - split.
    + intros (s1 & s2 & -> & H1 & H2)%Matches_seq_inv.
      apply IH in H2. inversion H1; subst. rewrite append_cons, append_nil_l.
      cbn [lower]. apply chr_eqb_ignore_case in H0. by rewrite H0, H2.
    + destruct m as [|c' m]; cbn [lower]; [discriminate|].
      intros [= Hc Hm].
      apply (Matches_seq _ _ _ _ (String c' EmptyString) m); [done| |by apply IH].
      constructor. by apply chr_eqb_ignore_case.
Qed.

(** X6.  Under [test], [/.*dashboard.*/] is [/dashboard/]: it accepts a
    URL exactly when "dashboard" occurs somewhere in it, also outside the
    path. *)
Theorem dashboard_pattern_is_substring_check :
  (forall u, test dashboard_re u = test (RegExp.mk (lit "dashboard") false) u) /\
  (forall a b, test dashboard_re (a +:+ "dashboard" +:+ b) = true) /\
  (forall u, (forall a b, u <> a +:+ "dashboard" +:+ b) -> test dashboard_re u = false).
Proof.
  assert (Hbare : forall u,
    test (RegExp.mk (lit "dashboard") false) u = true <->
    exists a b, u = a +:+ "dashboard" +:+ b).
  { intros u. rewrite test_spec. cbn [source ignoreCase]. split.
    - intros (a & m & b & -> & ->%Matches_lit). eauto.
    - intros (a & b & ->). exists a, "dashboard", b. split; [done|]. by apply Matches_lit. }
  split; [|split].
  - intros u. apply eq_true_iff_eq. by rewrite dashboard_re_spec, Hbare.
  - intros a b. apply dashboard_re_spec. eauto.
  - intros u Hu. destruct (test dashboard_re u) eqn:E; [|done].
    apply dashboard_re_spec in E as (a & b & ->). by destruct (Hu a b).
Qed.

(** X7.  [/pay with/i] accepts a text exactly when it contains "pay with"
    in some mix of capitals and small letters. *)
Theorem pay_with_pattern_ignores_case (s : string) :
  test pay_with_re s = true <->
  exists a m b, s = a +:+ m +:+ b /\ lower m = "pay with".
Proof.
  rewrite test_spec. unfold pay_with_re. cbn [source ignoreCase].
  split; intros (a & m & b & -> & Hm); exists a, m, b; split; try done;
    by apply (Matches_lit_ignore_case "pay with").
Qed.

End PatternFacts.

(** ** More on the page object *)

Section PageObjectMore.
Context {D : Driver}.

Lemma logged_since_new (l l' : list (EventOf Failure)) (w : World)
    (h : list (gmap string Val)) :
  logged_since l (mkState w h (l ++ l')) = l'.
Proof. unfold logged_since. cbn [log]. by rewrite drop_app_length. Qed.

Lemma on_page_heap (this : loc) (c : Call) (st : State) :
  heap (snd (on_page this c st)) = heap st.
Proof.
  unfold on_page. rewrite bind_unfold. unfold get_page.
  destruct (heap st !! this) as [o|]; [|done].
  destruct (o !! "page") as [[]|]; try done.
  unfold await. by destruct (exec p c (browser st)) as [[e|] w].
Qed.

(** A continuation only ever sees the heap the script started with. *)
Lemma run_calls_ext_heap {A} (this : loc) (cs : list Call) (k k' : M A) :
  forall st,
  (forall st', heap st' = heap st -> k st' = k' st') ->
  run_calls this cs k st = run_calls this cs k' st.
Proof.
  induction cs as [|c cs IH]; intros st Hk; simpl; [by apply Hk|].
  rewrite !bind_unfold. pose proof (on_page_heap this c st) as Hh.
  destruct (on_page this c st) as [[[]|e] st1]; [|done].
  simpl in Hh. apply IH. intros st' Hst'. apply Hk. congruence.
Qed.

Lemma events_of_pages (p : PageHandle) (cs : list Call) (r : option Failure) :
  forall n ev, ev ∈ events_of p cs n r -> event_page ev = p.
Proof.
  induction cs as [|c cs IH]; intros n ev Hev.
  - destruct n; by apply elem_of_nil in Hev.
  - destruct n as [|n]; simpl in Hev.
    + destruct r; [|by apply elem_of_nil in Hev].
      apply elem_of_cons in Hev as [->|Hev]; [done|].
      apply elem_of_cons in Hev as [->|Hev]; [done|]. by apply elem_of_nil in Hev.
    + apply elem_of_cons in Hev as [->|Hev]; [done|].
      apply elem_of_cons in Hev as [->|Hev]; [done|]. by apply (IH n).
Qed.

(** X1.  A page object made from [undefined] or from a string is of no
    use: every method called on it throws a [TypeError] before any
    library call, so that the browser and the log stay as they were, and
    so does the whole test.  The constructor itself checks nothing. *)
Theorem non_page_rejects_before_any_call (page : Val) (st : State) :
  page = VUndefined \/ (exists t, page = VString t) ->
  let made := {| browser := browser st; heap := heap st ++ [ {[ "page" := page ]} ];
                 log := log st |} in
  (forall s, exists msg, fresh_run page s st = (Throw (TypeError msg), made)) /\
  (exists msg, Shuttler_Booking page st = (Throw (TypeError msg), made)).
Proof.
  intros Hpage made.
  assert (Hp : page_of (heap made) (length (heap st)) = None).
  { unfold made. cbn [heap]. rewrite page_of_new.
    by destruct Hpage as [->|[t ->]]. }
  split.
  - intros s. apply (run_step_no_page _ s made Hp).
  - rewrite Shuttler_Booking_script. fold made.
    apply (run_calls_no_page _ (page_goto "https://my.shuttlers.co/auth/login")
             _ (ret tt) made Hp).
Qed.

(** X2.  A method of a page object whose [page] is a [Page] of the
    library talks to that page and to nothing else, and calls nothing
    but what its body lists: whether it is fulfilled or rejected, the
    events it logs are all about [this.page], and the calls it starts are
    the first few of its body, in order. *)
Theorem step_talks_only_to_its_page
    (s : FlowStep) (this : loc) (p : PageHandle) (st : State) :
  page_of (heap st) this = Some p ->
  let l := logged_since (log st) (snd (run_step this s st)) in
  (exists m, invocations l = take m (calls_of s)) /\
  (forall ev, ev ∈ l -> event_page ev = p).
Proof.
  intros Hp l. subst l.
  rewrite (run_step_script _ _ _ _ Hp).
  destruct (exec_calls p (calls_of s) (browser st)) as [[n [e|]] w];
    cbn [snd]; rewrite logged_since_new; split.
  - rewrite invocations_events_of. eauto.
  - intros ev Hev. by apply (events_of_pages _ _ _ _ _ Hev).
  - rewrite invocations_events_of. eauto.
  - intros ev Hev. by apply (events_of_pages _ _ _ _ _ Hev).
Qed.

(** X3.  A method is fulfilled exactly when the library fulfils every
    call of its body, one after the other; it has then started each call
    of its body once, in order, and leaves the browser as the last call
    left it.  This holds for [searchRoute] too, which ends on its last
    click without waiting for anything to show. *)
Theorem step_fulfilled_iff_calls_fulfilled
    (s : FlowStep) (this : loc) (p : PageHandle) (st : State) :
  page_of (heap st) this = Some p ->
  ((exists v st', run_step this s st = (Return v, st')) <->
   (exists w, exec_calls p (calls_of s) (browser st) = (length (calls_of s), None, w))) /\
  (forall v st', run_step this s st = (Return v, st') ->
     invocations (logged_since (log st) st') = calls_of s /\
     exec_calls p (calls_of s) (browser st)
       = (length (calls_of s), None, browser st')).
Proof.
  intros Hp. rewrite (run_step_script _ _ _ _ Hp).
  destruct (exec_calls p (calls_of s) (browser st)) as [[n r] w] eqn:E.
  pose proof (exec_calls_bounds _ _ _ _ _ _ E) as Hn.
  destruct r as [e|]; simpl in Hn.
  - split.
    + split; [by intros (v & st' & [=])|by intros (w' & [=])].
    + by intros v st' [=].
  - subst n. split.
    + split; eauto.
    + intros v st' [= <- <-]. cbn [browser]. rewrite logged_since_new.
      rewrite invocations_events_of. by rewrite take_ge.
Qed.

(** X4.  Steps chain into one script.  Two steps chained with [then], on
    one page object or on two page objects of the same page, are the
    calls of the first followed by the calls of the second, and the chain
    stops at the first rejection; chaining on the value the first step
    returns is chaining on the object itself. *)
Theorem chained_steps_are_one_script
    (s1 s2 : FlowStep) (this1 this2 : loc) (p : PageHandle) (st : State) :
  page_of (heap st) this1 = Some p ->
  page_of (heap st) this2 = Some p ->
  bind (run_step this1 s1) (fun _ => run_step this2 s2) st
    = run_calls this1 (calls_of s1 ++ calls_of s2) (ret this2) st /\
  bind (run_step this1 s1) (fun r => run_step r s2) st
    = bind (run_step this1 s1) (fun _ => run_step this1 s2) st.
Proof.
  intros Hp1 Hp2. split.
  - rewrite run_step_then, run_calls_app. apply run_calls_ext_heap.
    intros st' Hh. rewrite run_step_calls.
    rewrite (run_calls_script this2 p), (run_calls_script this1 p); congruence.
  - rewrite !bind_unfold, (run_step_script _ _ _ _ Hp1).
    by destruct (exec_calls p (calls_of s1) (browser st)) as [[n [e|]] w].
Qed.

(** X5.  The test passes exactly when it is given a [Page] and the
    library fulfils all fifteen calls of the chain goto, login,
    searchRoute, bookTrip in order; whatever happens it starts at most
    fifteen calls. *)
Theorem test_passes_iff_all_calls_fulfilled (page : Val) (st : State) :
  let chain := flat_map calls_of booking_steps in
  ((exists st', Shuttler_Booking page st = (Return tt, st')) <->
   (exists p w, page = VPage p /\ exec_calls p chain (browser st) = (15, None, w))) /\
  length (invocations (logged_since (log st) (snd (Shuttler_Booking page st)))) <= 15.
Proof.
  intros chain. rewrite Shuttler_Booking_script. fold chain.
  set (made := mkState _ _ _).
  assert (Hlen : length chain = 15) by reflexivity.
  destruct (page_of (heap made) (length (heap st))) as [p|] eqn:Hp.
  - assert (page = VPage p) as ->.
    { unfold made in Hp. cbn [heap] in Hp. rewrite page_of_new in Hp.
      destruct page; by inversion Hp. }
    rewrite (run_calls_script _ _ _ _ _ Hp). change (browser made) with (browser st).
    destruct (exec_calls p chain (browser st)) as [[n r] w] eqn:E.
    pose proof (exec_calls_bounds _ _ _ _ _ _ E) as Hn.
    destruct r as [e|]; simpl in Hn; unfold ret; cbn [snd].
    + split.
      * split; [by intros (st' & [=])|]. intros (q & w' & Hq & H).
        inversion Hq; subst q. rewrite E in H. discriminate.
      * change (log made) with (log st). rewrite logged_since_new.
        rewrite invocations_events_of, length_take. lia.
    + split.
      * split; [|eauto]. intros _. exists p, w. split; [done|]. congruence.
      * change (log made) with (log st). rewrite logged_since_new.
        rewrite invocations_events_of, length_take. lia.
  - destruct (run_calls_no_page (length (heap st))
                (page_goto "https://my.shuttlers.co/auth/login")
                (tl chain) (ret tt) made Hp) as [msg Hm].
    change (_ :: tl chain) with chain in Hm. rewrite Hm. cbn [snd]. split.
    + split; [by intros (st' & [=])|]. intros (q & w & -> & _).
      unfold made in Hp. cbn [heap] in Hp. by rewrite page_of_new in Hp.
    + unfold logged_since. rewrite drop_all. simpl. lia.
Qed.

(** X10.  The constructor makes a new object and does nothing else: the
    object is at an address that was free, it holds the given value in
    its [page] field and no other field, every object that existed is
    unchanged, and neither the browser nor the log is touched; two page
    objects made from one page are two objects with the same page. *)
Theorem constructor_makes_new_object (page : Val) (st : State) :
  let r := new_ShuttlerSimplePage page st in
  exists this,
    fst r = Return this /\
    heap st !! this = None /\
    heap (snd r) !! this = Some {[ "page" := page ]} /\
    (forall l o, heap st !! l = Some o -> heap (snd r) !! l = Some o) /\
    browser (snd r) = browser st /\ log (snd r) = log st /\
    (forall other, fst (new_ShuttlerSimplePage page (snd r)) = Return other ->
       other <> this /\
       page_of (heap (snd (new_ShuttlerSimplePage page (snd r)))) other
         = page_of (heap (snd (new_ShuttlerSimplePage page (snd r)))) this).
Proof.
  intros r. exists (length (heap st)). subst r.
  unfold new_ShuttlerSimplePage, alloc. cbn [fst snd heap browser log].
  split; [done|]. split; [apply lookup_ge_None; lia|].
  split; [by apply list_lookup_middle|].
  split; [intros l o Hl; by apply lookup_app_l_Some|].
  split; [done|]. split; [done|].
  intros other [= <-]. split.
  - rewrite length_app. simpl. lia.
  - rewrite page_of_new.
    unfold page_of. rewrite lookup_app_l by (rewrite length_app; simpl; lia).
    rewrite list_lookup_middle by done. by rewrite lookup_singleton_eq.
Qed.

End PageObjectMore.

(** ** The inspection script *)

Section ScriptFacts.
Context {R : Runtime}.

Lemma traced_since_new (t t' : list (Op * (Fault + nat))) (m : Machine) :
  traced_since t (mkRun m (t ++ t')) = t'.
Proof. unfold traced_since. cbn [trace]. by rewrite drop_app_length. Qed.

Ltac run_script H :=
  unfold temp_inspect, and_then, awaited in H; cbn [machine trace] in H;
  repeat match type of H with
         | context [perform ?o ?m] =>
             let E := fresh "E" in
             destruct (perform o m) as [[?|?] ?] eqn:E; cbn [machine trace] in H
         end.

(** X8.  When the inspection script runs to its end it has closed what
    it opened, once each and in the reverse order: the page, then its
    context, then the browser, after the navigation and the click on
    that page, and it has awaited nothing else. *)
Theorem inspect_closes_what_it_opened (r r' : Run) :
  temp_inspect r = (inr tt, r') ->
  exists browser context page v4 v5 v6 v7 v8,
    traced_since (trace r) r' =
      [(chromium_launch false, inr browser);
       (browser_newContext browser, inr context);
       (context_newPage context, inr page);
       (page_call page (page_goto "https://my.shuttlers.co/auth/login"), inr v4);
       (page_call page (click (getByRole "textbox" (Some "Email Address"))), inr v5);
       (page_close page, inr v6);
       (context_close context, inr v7);
       (browser_close browser, inr v8)].
Proof.
  intros H. run_script H; try discriminate.
  inversion H; subst. rewrite <- !app_assoc, traced_since_new. simpl.
  by repeat eexists.
Qed.

(** X9.  The inspection script has no clean-up path.  When an awaited
    operation is rejected the script ends with that error: the rejected
    operation is the last one awaited and all before it were fulfilled;
    the browser has not been closed; and when the rejected operation is
    not itself a close (the launch, the context, the page, the
    navigation or the click), nothing has been closed at all. *)
Theorem inspect_rejected_closes_nothing (r r' : Run) (e : Fault) :
  temp_inspect r = (inl e, r') ->
  exists (before : list (Op * (Fault + nat))) (o : Op),
    traced_since (trace r) r' = (before ++ [(o, inl e)])%list /\
    forallb fulfilled before = true /\
    existsb (fun x => closes_browser (fst x) && fulfilled x)
      (traced_since (trace r) r') = false /\
    (closes o = false ->
     existsb (fun x => closes (fst x)) (traced_since (trace r) r') = false).
Proof.
  intros H. run_script H; try discriminate;
    inversion H; subst; rewrite <- ?app_assoc, traced_since_new; simpl;
    match goal with
    | |- context [(?o, inl e)] =>
        match goal with
        | |- exists b o', ?l = _ /\ _ =>
            exists (removelast l), o; repeat split; try done
        end
    end.
Qed.

End ScriptFacts.

(** ** Runs of the further properties *)

Lemma non_page_rejects_before_any_call_witness :
  let st := Demo.start (Demo.app id id) in
  let page := VString "https://my.shuttlers.co" in
  (page = VUndefined \/ exists t, page = VString t) /\
  exists msg,
    Shuttler_Booking (D := Demo.driver) page st
      = (Throw (TypeError msg),
         {| browser := browser st; heap := heap st ++ [ {[ "page" := page ]} ];
            log := log st |}).
Proof.
  intros st page.
  assert (H : page = VUndefined \/ exists t, page = VString t)
    by (right; eexists; reflexivity).
  split; [exact H|].
  exact (proj2 (non_page_rejects_before_any_call (D := Demo.driver) page st H)).
Defined.

Lemma step_talks_only_to_its_page_witness :
  let st := Demo.ready (Demo.app Demo.hidden id) in
  let l := logged_since (log st)
             (snd (run_step (D := Demo.driver) 0
                     (Login "jamesswagz24@gmail.com" "TestPassword") st)) in
  page_of (heap st) 0 = Some 7 /\
  (forall ev, ev ∈ l -> event_page ev = 7).
Proof.
  intros st l.
  assert (Hp : page_of (heap st) 0 = Some 7) by (vm_compute; reflexivity).
  split; [exact Hp|].
  exact (proj2 (step_talks_only_to_its_page (D := Demo.driver)
                  (Login "jamesswagz24@gmail.com" "TestPassword") 0 7 st Hp)).
Defined.

Lemma step_fulfilled_iff_calls_fulfilled_witness :
  let st := Demo.ready (Demo.app id id) in
  let s := SearchRoute "festac" "Festac Town, Lagos, Nigeria" "Eko"
             "Eko Hotel Roundabout, Lagos, Nigeria" "20" in
  page_of (heap st) 0 = Some 7 /\
  exists v st', run_step (D := Demo.driver) 0 s st = (Return v, st').
Proof.
  intros st s.
  assert (Hp : page_of (heap st) 0 = Some 7) by (vm_compute; reflexivity).
  split; [exact Hp|].
  apply (proj1 (step_fulfilled_iff_calls_fulfilled (D := Demo.driver) s 0 7 st Hp)).
  exists (snd (exec_calls (D := Demo.driver) 7 (calls_of s) (browser st))).
  vm_compute. reflexivity.
Defined.

Lemma chained_steps_are_one_script_witness :
  let st : State (D := Demo.driver) :=
    mkState (Demo.session (Demo.app id id))
      [ {[ "page" := VPage 7 ]}; {[ "page" := VPage 7 ]} ] [] in
  let s1 := Goto in
  let s2 := Login "jamesswagz24@gmail.com" "TestPassword" in
  page_of (heap st) 0 = Some 7 /\
  page_of (heap st) 1 = Some 7 /\
  bind (run_step (D := Demo.driver) 0 s1) (fun _ => run_step 1 s2) st
    = run_calls 0 (calls_of s1 ++ calls_of s2) (ret 1) st.
Proof.
  intros st s1 s2.
  assert (H0 : page_of (heap st) 0 = Some 7) by (vm_compute; reflexivity).
  assert (H1 : page_of (heap st) 1 = Some 7) by (vm_compute; reflexivity).
  split; [exact H0|]. split; [exact H1|].
  exact (proj1 (chained_steps_are_one_script (D := Demo.driver) s1 s2 0 1 7 st H0 H1)).
Defined.

Lemma inspect_closes_what_it_opened_witness :
  let r := DemoRuntime.start (fun _ => false) in
  let out := temp_inspect (R := DemoRuntime.runtime (fun _ => false)) r in
  out = (inr tt, snd out) /\
  length (traced_since (trace r) (snd out)) = 8.
Proof.
  intros r out.
  assert (H : out = (inr tt, snd out)) by (vm_compute; reflexivity).
  split; [exact H|].
  destruct (inspect_closes_what_it_opened
              (R := DemoRuntime.runtime (fun _ => false)) r (snd out) H)
    as (b & c & p & v4 & v5 & v6 & v7 & v8 & ->).
  reflexivity.
Defined.

Lemma inspect_rejected_closes_nothing_witness :
  let R := DemoRuntime.runtime DemoRuntime.click_breaks in
  let r := DemoRuntime.start DemoRuntime.click_breaks in
  let out := temp_inspect (R := R) r in
  out = (inl "rejected", snd out) /\
  existsb (fun x => closes (fst x)) (traced_since (R := R) (trace r) (snd out)) = false.
Proof.
  intros R r out.
  assert (H : out = (inl "rejected", snd out)) by (vm_compute; reflexivity).
  split; [exact H|].
  destruct (inspect_rejected_closes_nothing (R := R) r (snd out) "rejected" H)
    as (before & o & Htr & _ & _ & Hnone).
  apply Hnone.
  assert (Hlast : last (traced_since (R := R) (trace r) (snd out))
                  = Some (page_call 3 (click (getByRole "textbox" (Some "Email Address"))),
                          inl "rejected"))
    by (vm_compute; reflexivity).
  pose proof (f_equal last Htr) as Hl. rewrite last_snoc in Hl.
  assert (Ho : Some (o, inl "rejected")
               = Some (page_call 3 (click (getByRole "textbox" (Some "Email Address"))),
                       (inl "rejected" : string + nat)))
    by exact (eq_trans (eq_sym Hl) Hlast).
  by inversion Ho.
Defined.
